(** * memlet: the ordered queue of [src/queue.ts]

    A shallow embedding of [makeQueue] and a verification of its
    specification.

    Modelling conventions.
    - A JavaScript object of type [T extends QueueItem] is a record holding
      its identity (the reference [===] compares) and its [key] field; two
      records are the same object exactly when they are equal.
    - [number] values are mathematical integers ([Z]): timestamps are
      integers, and indices stay in the range where [>> 1] is the floor of
      the half.
    - [string] values are Rocq strings, and [>] on them is the
      lexicographic comparison of their character codes.
    - The closure state ([items], [timestampMap]) is an explicit [State]
      passed through every method; [throw] is the [Thrown] outcome, which
      carries the state the caller is left with.
    - [Date.now()] is a parameter [now] of the two methods that read it. *)

From Stdlib Require Import ZArith String Ascii List Lia Bool Sorted.
From Equations Require Import Equations.
From stdpp Require Import base option list gmap strings.

Local Open Scope Z_scope.

Module Queue.

(** ** Items and their keys *)

Record QueueItem : Type := mkItem { ident : positive; key : string }.

#[global] Instance QueueItem_eq_dec : EqDecision QueueItem.
Proof. solve_decision. Defined.

#[global] Instance QueueItem_countable : Countable QueueItem.
Proof.
  refine (inj_countable' (λ x, (ident x, key x)) (λ p, mkItem p.1 p.2) _).
  by intros [].
Defined.

(** [a > b] on strings. *)
Definition str_gt (a b : string) : bool :=
  match String.compare a b with Gt => true | _ => false end.

(** [a <= b] on strings. *)
Definition str_le (a b : string) : bool :=
  match String.compare a b with Gt => false | _ => true end.

(** ** The state of a queue and the outcome of a call *)

Record State : Type := mkState {
  items : list QueueItem;
  timestampMap : gmap QueueItem Z
}.

Definition makeQueue : State := mkState [] ∅.

Inductive Outcome (A : Type) : Type :=
| Returned (a : A) (q : State)
| Thrown (e : string) (q : State).
Arguments Returned {A} a q.
Arguments Thrown {A} e q.

Definition state_of {A} (o : Outcome A) : State :=
  match o with Returned _ q => q | Thrown _ q => q end.

Definition faulted {A} (o : Outcome A) : bool :=
  match o with Returned _ _ => false | Thrown _ _ => true end.

Definition missing_timestamp : string := "Missing timestamp for item in queue".

(** [arr[i]] for an integer index: [undefined] out of range. *)
Definition at_index {A} (arr : list A) (i : Z) : option A :=
  if i <? 0 then None else arr !! Z.to_nat i.

(** [arr.splice(start, 0, x)] *)
Definition splice_insert {A} (arr : list A) (start : Z) (x : A) : list A :=
  take (Z.to_nat start) arr ++ x :: drop (Z.to_nat start) arr.

(** [arr.splice(start, 1)]: the array that is left. *)
Definition splice_delete {A} (arr : list A) (start : Z) : list A :=
  take (Z.to_nat start) arr ++ drop (S (Z.to_nat start)) arr.

(** ** enqueue *)

(** The test that breaks out of the backward scan. *)
Definition goes_after (newItemTimestamp : Z) (newItem : QueueItem)
    (endItemTimestamp : Z) (endItem : QueueItem) : bool :=
  (newItemTimestamp >? endItemTimestamp)
  || ((newItemTimestamp =? endItemTimestamp) && str_gt (key newItem) (key endItem)).

(** The [while (endItemIndex >= 0)] loop; [n] is [endItemIndex + 1].  The
    result is the value of [endItemIndex] when the loop is left, or the
    message of the error thrown. *)
Fixpoint enqueue_scan (its : list QueueItem) (m : gmap QueueItem Z)
    (newItem : QueueItem) (newItemTimestamp : Z) (n : nat) : string + Z :=
  match n with
  | O => inr (-1)
  | S endItemIndex =>
      match its !! endItemIndex with
      | None => inl missing_timestamp
      | Some endItem =>
          match m !! endItem with
          | None => inl missing_timestamp
          | Some endItemTimestamp =>
              if goes_after newItemTimestamp newItem endItemTimestamp endItem
              then inr (Z.of_nat endItemIndex)
              else enqueue_scan its m newItem newItemTimestamp endItemIndex
          end
      end
  end.

Definition enqueue (now : Z) (q : State) (newItem : QueueItem)
    (timestamp : option Z) : Outcome unit :=
  let timestamp := default now timestamp in
  let newItemTimestamp := default timestamp (timestampMap q !! newItem) in
  match enqueue_scan (items q) (timestampMap q) newItem newItemTimestamp
          (length (items q)) with
  | inl e => Thrown e q
  | inr endItemIndex =>
      Returned tt
        (mkState (splice_insert (items q) (endItemIndex + 1) newItem)
                 (<[newItem := newItemTimestamp]> (timestampMap q)))
  end.

(** ** dequeue *)

Definition dequeue (q : State) : Outcome (option QueueItem) :=
  match items q with
  | [] => Returned None q
  | item :: rest => Returned (Some item) (mkState rest (delete item (timestampMap q)))
  end.

(** ** indexOfItemInQueue *)

Definition direction (needleItem : QueueItem) (needleItemTimestamp : Z)
    (haystackItem : QueueItem) (haystackItemTimestamp : Z) : Z :=
  if decide (needleItem = haystackItem) then 0
  else if negb (needleItemTimestamp - haystackItemTimestamp =? 0)
       then needleItemTimestamp - haystackItemTimestamp
       else if str_gt (key needleItem) (key haystackItem) then 1 else -1.

(** The [while (l <= r)] loop. *)
Equations? search (its : list QueueItem) (m : gmap QueueItem Z)
    (needleItem : QueueItem) (needleItemTimestamp : Z) (l r : Z) : string + Z
    by wf (Z.to_nat (r - l + 1)) lt :=
search its m needleItem needleItemTimestamp l r with Z_le_dec l r := {
  | right _ => inr (-1)
  | left _ with at_index its (Z.shiftr (l + r) 1) := {
    | None => inl missing_timestamp
    | Some haystackItem with m !! haystackItem := {
      | None => inl missing_timestamp
      | Some haystackItemTimestamp =>
          let index := Z.shiftr (l + r) 1 in
          let d := direction needleItem needleItemTimestamp
                     haystackItem haystackItemTimestamp in
          if d >? 0 then search its m needleItem needleItemTimestamp (index + 1) r
          else if d <? 0 then search its m needleItem needleItemTimestamp l (index - 1)
          else inr index } } }.
Proof.
  all: subst index; rewrite Z.shiftr_div_pow2 by lia; change (2 ^ 1) with 2.
  all: pose proof (Z.div_mod (l + r) 2 ltac:(lia));
       pose proof (Z.mod_pos_bound (l + r) 2 ltac:(lia)); lia.
Qed.

Definition indexOfItemInQueue (q : State) (needleItem : QueueItem) : string + Z :=
  match timestampMap q !! needleItem with
  | None => inr (-1)
  | Some needleItemTimestamp =>
      search (items q) (timestampMap q) needleItem needleItemTimestamp
        0 (Z.of_nat (length (items q)) - 1)
  end.

(** ** remove *)

Definition remove (q : State) (item : QueueItem) : Outcome unit :=
  match indexOfItemInQueue q item with
  | inl e => Thrown e q
  | inr index =>
      if index >=? 0 then
        Returned tt
          (mkState (splice_delete (items q) index)
                   (match at_index (items q) index with
                    | Some item' => delete item' (timestampMap q)
                    | None => timestampMap q
                    end))
      else Returned tt q
  end.

(** ** requeue *)

(** [now] is the clock read for requeue's own default, [now'] the one read
    for the default of the inner [queue.enqueue(item)]. *)
Definition requeue (now now' : Z) (q : State) (item : QueueItem)
    (timestamp : option Z) : Outcome unit :=
  let timestamp := default now timestamp in
  match remove q item with
  | Thrown e q1 => Thrown e q1
  | Returned _ q1 =>
      enqueue now' (mkState (items q1) (<[item := timestamp]> (timestampMap q1)))
        item None
  end.

(** ** Sequences of calls *)

Inductive Call : Type :=
| Enqueue (item : QueueItem) (timestamp : option Z)
| Dequeue
| Requeue (item : QueueItem) (timestamp : option Z)
| Remove (item : QueueItem).

(** One call of the interface, at a moment when the clock reads [now]; the
    value a call returns is dropped. *)
Definition call (now : Z) (q : State) (c : Call) : Outcome unit :=
  match c with
  | Enqueue item timestamp => enqueue now q item timestamp
  | Dequeue =>
      match dequeue q with
      | Returned _ q' => Returned tt q'
      | Thrown e q' => Thrown e q'
      end
  | Requeue item timestamp => requeue now now q item timestamp
  | Remove item => remove q item
  end.

(** A caller that makes the calls one after the other (and goes on after a
    fault, with the state the fault left). *)
Fixpoint run (q : State) (cs : list (Z * Call)) : State :=
  match cs with
  | [] => q
  | (now, c) :: cs' => run (state_of (call now q c)) cs'
  end.

(** ** The vocabulary of the specification *)

(** The ordering rule on (timestamp, key) pairs. *)
Definition ord_le (ta : Z) (ka : string) (tb : Z) (kb : string) : Prop :=
  ta < tb ∨ (ta = tb ∧ str_le ka kb = true).

Definition ord_lt (ta : Z) (ka : string) (tb : Z) (kb : string) : Prop :=
  ta < tb ∨ (ta = tb ∧ str_gt kb ka = true).

(** [a] may stand immediately before [b]: both have a recorded timestamp
    and [timestamp(a) < timestamp(b)], or the timestamps are equal and
    [key(a) <= key(b)]. *)
Definition in_order (m : gmap QueueItem Z) (a b : QueueItem) : Prop :=
  ∃ ta tb, m !! a = Some ta ∧ m !! b = Some tb ∧ ord_le ta (key a) tb (key b).

Definition sort_invariant (q : State) : Prop :=
  ∀ (i : nat) a b,
    items q !! i = Some a → items q !! S i = Some b →
    in_order (timestampMap q) a b.

Definition all_timestamped (q : State) : Prop :=
  ∀ x, x ∈ items q → is_Some (timestampMap q !! x).

(** Keys are unique within the queue. *)
Definition keys_unique (q : State) : Prop := NoDup (key <$> items q).

(** The states of a queue whose caller keeps keys unique. *)
Record well_formed (q : State) : Prop := {
  wf_keys : keys_unique q;
  wf_timestamped : all_timestamped q;
  wf_sorted : sort_invariant q
}.

(** What the caller owes for a call to keep keys unique within the queue:
    an item to enqueue has a key that no entry of the queue has (so it is
    not in the queue itself), an item to requeue has a key that no other
    item of the queue has. *)
Definition key_free (q : State) (x : QueueItem) : Prop :=
  key x ∉ key <$> items q.

Definition key_own (q : State) (x : QueueItem) : Prop :=
  Forall (λ y, key y = key x → y = x) (items q).

Definition call_ok (q : State) (c : Call) : Prop :=
  match c with
  | Enqueue item _ => key_free q item
  | Requeue item _ => key_own q item
  | Dequeue | Remove _ => True
  end.

Fixpoint calls_ok (q : State) (cs : list (Z * Call)) : Prop :=
  match cs with
  | [] => True
  | (now, c) :: cs' => call_ok q c ∧ calls_ok (state_of (call now q c)) cs'
  end.

#[global] Instance call_ok_dec q c : Decision (call_ok q c).
Proof. destruct c; simpl; unfold key_free, key_own; apply _. Defined.

#[global] Instance calls_ok_dec q cs : Decision (calls_ok q cs).
Proof.
  revert q. induction cs as [|[now c] cs IH]; simpl; intros q; apply _.
Defined.

(** No call of the sequence faults. *)
Fixpoint no_fault (q : State) (cs : list (Z * Call)) : Prop :=
  match cs with
  | [] => True
  | (now, c) :: cs' =>
      faulted (call now q c) = false ∧ no_fault (state_of (call now q c)) cs'
  end.

(** Items to run the queue on. *)
Definition itemA : QueueItem := mkItem 1 "a".
Definition itemB : QueueItem := mkItem 2 "b".
Definition itemC : QueueItem := mkItem 3 "a".
Definition itemD : QueueItem := mkItem 4 "d".
Definition itemX : QueueItem := mkItem 5 "x".

(** ** list *)

Definition list (q : State) : list QueueItem := items q.

(** The timestamp enqueue orders the new item by. *)
Definition effective_timestamp (now : Z) (q : State) (x : QueueItem)
    (timestamp : option Z) : Z :=
  match timestampMap q !! x with
  | Some recorded => recorded
  | None => match timestamp with Some t => t | None => now end
  end.

(** The backward scan for a new item reaches index [i]: every item after
    [i] has a recorded timestamp and does not make the scan stop. *)
Definition scan_reaches (q : State) (newItem : QueueItem) (newTimestamp : Z)
    (i : nat) : Prop :=
  (i < length (items q))%nat ∧
  ∀ (j : nat) endItem,
    (i < j)%nat → items q !! j = Some endItem →
    ∃ endTimestamp,
      timestampMap q !! endItem = Some endTimestamp ∧
      goes_after newTimestamp newItem endTimestamp endItem = false.

(** The index the binary search looks at in the interval [l..r]. *)
Definition midpoint (l r : Z) : Z := Z.shiftr (l + r) 1.

(** The binary search for a needle on the interval [l..r] looks at index
    [i]: [i] is the midpoint, or the item at the midpoint has a recorded
    timestamp and sends the search to a half whose search looks at [i]. *)
Inductive probes (its : Datatypes.list QueueItem) (m : gmap QueueItem Z)
    (needleItem : QueueItem) (needleItemTimestamp : Z) : Z → Z → Z → Prop :=
| probes_midpoint l r :
    l ≤ r → probes its m needleItem needleItemTimestamp l r (midpoint l r)
| probes_higher l r haystackItem haystackItemTimestamp i :
    l ≤ r → at_index its (midpoint l r) = Some haystackItem →
    m !! haystackItem = Some haystackItemTimestamp →
    direction needleItem needleItemTimestamp haystackItem haystackItemTimestamp > 0 →
    probes its m needleItem needleItemTimestamp (midpoint l r + 1) r i →
    probes its m needleItem needleItemTimestamp l r i
| probes_lower l r haystackItem haystackItemTimestamp i :
    l ≤ r → at_index its (midpoint l r) = Some haystackItem →
    m !! haystackItem = Some haystackItemTimestamp →
    direction needleItem needleItemTimestamp haystackItem haystackItemTimestamp < 0 →
    probes its m needleItem needleItemTimestamp l (midpoint l r - 1) i →
    probes its m needleItem needleItemTimestamp l r i.

(** Where the items of [delete i l] were in [l]. *)
Definition before_delete (i j : nat) : nat := if decide (j < i)%nat then j else S j.

(** The association holds a timestamp for no item outside the queue. *)
Definition association_exact (q : State) : Prop :=
  ∀ x, is_Some (timestampMap q !! x) → x ∈ items q.

(** A caller that dequeues until the queue answers that it is empty, at
    most [n] times: the items it got, in the order it got them, and the
    state it leaves. *)
Fixpoint drain (n : nat) (q : State) : Datatypes.list QueueItem * State :=
  match n with
  | O => ([], q)
  | S n' =>
      match dequeue q with
      | Returned (Some item) q' =>
          let (others, q'') := drain n' q' in (item :: others, q'')
      | Returned None q' => ([], q')
      | Thrown _ q' => ([], q')
      end
  end.

(** The binary search finds the item: it answers an index, not -1 and not
    an error. *)
Definition locatedb (q : State) (x : QueueItem) : bool :=
  match indexOfItemInQueue q x with
  | inr index => 0 <=? index
  | inl _ => false
  end.

Definition located (q : State) (x : QueueItem) : Prop := locatedb q x = true.

(** The item is in the sequence at most once. *)
Definition at_most_once (q : State) (x : QueueItem) : Prop :=
  (length (filter (λ y, y = x) (items q)) ≤ 1)%nat.

#[global] Instance at_most_once_dec q x : Decision (at_most_once q x).
Proof. unfold at_most_once. apply _. Defined.

(** The states of a queue without an item in it twice. *)
Record orderly (q : State) : Prop := {
  orderly_once : NoDup (items q);
  orderly_timestamped : all_timestamped q;
  orderly_sorted : sort_invariant q
}.

(** What the caller owes for a call to keep the queue orderly: an item to
    enqueue is not in the queue, and an item to requeue that is in the
    queue is one the binary search finds. *)
Definition call_safe (q : State) (c : Call) : Prop :=
  match c with
  | Enqueue item _ => item ∉ items q
  | Requeue item _ => item ∈ items q → located q item
  | Dequeue | Remove _ => True
  end.

Fixpoint calls_safe (q : State) (cs : Datatypes.list (Z * Call)) : Prop :=
  match cs with
  | [] => True
  | (now, c) :: cs' => call_safe q c ∧ calls_safe (state_of (call now q c)) cs'
  end.

#[global] Instance call_safe_dec q c : Decision (call_safe q c).
Proof. destruct c; simpl; unfold located; apply _. Defined.

#[global] Instance calls_safe_dec q cs : Decision (calls_safe q cs).
Proof.
  revert q. induction cs as [|[now c] cs IH]; simpl; intros q; apply _.
Defined.

(** The calls [enqueue(item, timestamp)] for the pairs of a list, one after
    the other, each at a moment when the clock reads [now]. *)
Definition enqueue_all (now : Z) (l : Datatypes.list (QueueItem * Z))
    : Datatypes.list (Z * Call) :=
  (λ p, (now, Enqueue p.1 (Some p.2))) <$> l.

(** A decidable fact about closed terms, by evaluation. *)
Ltac by_evaluation := apply (bool_decide_unpack _); vm_compute; exact I.

(** * Strings and the ordering rule *)

Lemma str_le_gt a b : str_le a b = negb (str_gt a b).
Proof. unfold str_le, str_gt. by destruct (String.compare a b). Qed.

Lemma ascii_compare_refl c : Ascii.compare c c = Eq.
Proof. apply N.compare_refl. Qed.

Lemma string_compare_refl s : String.compare s s = Eq.
Proof. induction s as [|c s IH]; simpl; [done|]. by rewrite ascii_compare_refl. Qed.

Lemma string_compare_lt_trans a b c :
  String.compare a b = Lt → String.compare b c = Lt → String.compare a c = Lt.
Proof.
  revert b c. induction a as [|x a IH]; intros [|y b] [|z c]; simpl; try done.
  unfold Ascii.compare.
  destruct (N.compare_spec (N_of_ascii x) (N_of_ascii y)) as [Exy|Lxy|Gxy];
    destruct (N.compare_spec (N_of_ascii y) (N_of_ascii z)) as [Eyz|Lyz|Gyz];
    try done; intros Hab Hbc.
  - rewrite Exy, Eyz, N.compare_refl. eauto.
  - rewrite Exy. by apply N.compare_lt_iff in Lyz as ->.
  - rewrite <- Eyz. by apply N.compare_lt_iff in Lxy as ->.
  - assert (N_of_ascii x < N_of_ascii z)%N as Hlt by lia.
    by apply N.compare_lt_iff in Hlt as ->.
Qed.

Lemma str_gt_lt a b : str_gt a b = true ↔ String.compare b a = Lt.
Proof.
  unfold str_gt. rewrite (String.compare_antisym b a).
  destruct (String.compare a b); simpl; split; congruence.
Qed.

Lemma str_gt_irrefl a : str_gt a a = false.
Proof. unfold str_gt. by rewrite string_compare_refl. Qed.

Lemma str_gt_trans a b c : str_gt a b = true → str_gt b c = true → str_gt a c = true.
Proof. rewrite !str_gt_lt. eauto using string_compare_lt_trans. Qed.

Lemma str_gt_asym a b : str_gt a b = true → str_gt b a = false.
Proof.
  intros H. destruct (str_gt b a) eqn:E; [|done].
  pose proof (str_gt_trans _ _ _ H E) as H'. by rewrite str_gt_irrefl in H'.
Qed.

(** Trichotomy of the comparison of keys. *)
Lemma str_trichotomy a b : str_gt a b = true ∨ a = b ∨ str_gt b a = true.
Proof.
  destruct (String.compare a b) eqn:E.
  - right; left. by apply String.compare_eq_iff.
  - right; right. by apply str_gt_lt.
  - left. unfold str_gt. by rewrite E.
Qed.

Lemma str_le_cases a b : str_le a b = true ↔ a = b ∨ str_gt b a = true.
Proof.
  rewrite str_le_gt, negb_true_iff. split.
  - intros H. destruct (str_trichotomy a b) as [?|[?|?]]; [congruence|auto..].
  - intros [->|H]; [apply str_gt_irrefl | by apply str_gt_asym].
Qed.

Lemma ord_lt_le ta ka tb kb : ord_lt ta ka tb kb → ord_le ta ka tb kb.
Proof.
  intros [?|[-> ?]]; [by left|right]. split; [done|]. apply str_le_cases; auto.
Qed.

Lemma ord_le_cases ta ka tb kb :
  ord_le ta ka tb kb ↔ ord_lt ta ka tb kb ∨ (ta = tb ∧ ka = kb).
Proof.
  unfold ord_le, ord_lt. rewrite str_le_cases. intuition.
Qed.

Lemma ord_lt_irrefl t k : ¬ ord_lt t k t k.
Proof. intros [?|[_ H]]; [lia|]. by rewrite str_gt_irrefl in H. Qed.

Lemma ord_lt_trans ta ka tb kb tc kc :
  ord_lt ta ka tb kb → ord_lt tb kb tc kc → ord_lt ta ka tc kc.
Proof.
  intros [?|[-> H1]] [?|[-> H2]]; [left; lia..|].
  right. split; [done|]. eauto using str_gt_trans.
Qed.

Lemma ord_le_trans ta ka tb kb tc kc :
  ord_le ta ka tb kb → ord_le tb kb tc kc → ord_le ta ka tc kc.
Proof.
  rewrite !ord_le_cases.
  intros [H1|[-> ->]] [H2|[-> ->]]; eauto using ord_lt_trans.
Qed.

Lemma ord_lt_le_trans ta ka tb kb tc kc :
  ord_lt ta ka tb kb → ord_le tb kb tc kc → ord_lt ta ka tc kc.
Proof. rewrite ord_le_cases. intros H1 [H2|[-> ->]]; eauto using ord_lt_trans. Qed.

Lemma ord_le_lt_trans ta ka tb kb tc kc :
  ord_le ta ka tb kb → ord_lt tb kb tc kc → ord_lt ta ka tc kc.
Proof. rewrite ord_le_cases. intros [H1|[-> ->]] H2; eauto using ord_lt_trans. Qed.

Lemma ord_total ta ka tb kb : ord_lt ta ka tb kb ∨ ord_le tb kb ta ka.
Proof.
  unfold ord_lt, ord_le. rewrite str_le_gt, negb_true_iff.
  destruct (Z.lt_trichotomy ta tb) as [?|[->|?]]; [auto| |auto].
  destruct (str_gt kb ka) eqn:E; auto.
Qed.

(** The test of the scan is the strict ordering rule. *)
Lemma goes_after_lt nt x et e :
  goes_after nt x et e = true ↔ ord_lt et (key e) nt (key x).
Proof.
  unfold goes_after, ord_lt.
  rewrite orb_true_iff, andb_true_iff, Z.gtb_lt, Z.eqb_eq. intuition.
Qed.

Lemma goes_after_false nt x et e :
  goes_after nt x et e = false ↔ ord_le nt (key x) et (key e).
Proof.
  split.
  - intros H. destruct (ord_total et (key e) nt (key x)) as [Hlt|]; [|done].
    apply goes_after_lt in Hlt. congruence.
  - intros H. destruct (goes_after nt x et e) eqn:E; [|done].
    apply goes_after_lt in E. destruct (ord_lt_irrefl nt (key x)).
    eauto using ord_le_lt_trans.
Qed.

(** * Arrays *)

Lemma lookup_splice_insert {A} (l : Datatypes.list A) (p : nat) (x : A) (i : nat) :
  (p ≤ length l)%nat →
  (take p l ++ x :: drop p l) !! i =
    if decide (i < p)%nat then l !! i
    else if decide (i = p) then Some x else l !! (i - 1)%nat.
Proof.
  intros Hp. repeat case_decide.
  - rewrite lookup_app_l by (rewrite length_take; lia). by apply lookup_take_lt.
  - subst i. rewrite lookup_app_r by (rewrite length_take; lia).
    rewrite length_take_le by done. by rewrite Nat.sub_diag.
  - rewrite lookup_app_r by (rewrite length_take; lia).
    rewrite length_take_le by done.
    destruct (i - p)%nat as [|k] eqn:E; [lia|]. simpl.
    rewrite lookup_drop. f_equal. lia.
Qed.

Lemma splice_insert_perm {A} (l : Datatypes.list A) (p : nat) (x : A) :
  take p l ++ x :: drop p l ≡ₚ x :: l.
Proof. rewrite <- Permutation_middle. by rewrite take_drop. Qed.

Lemma splice_delete_delete {A} (l : Datatypes.list A) (i : Z) :
  0 ≤ i → splice_delete l i = delete (Z.to_nat i) l.
Proof. intros _. unfold splice_delete. by rewrite delete_take_drop. Qed.

(** * The backward scan of enqueue *)

(** Where the scan stops when no timestamp is missing: at [p - 1], where
    [p] is such that the item before position [p] (if any) is strictly
    below the new item, and no item from [p] on is. *)
Lemma enqueue_scan_spec its m x t (n : nat) :
  (∀ (j : nat) e, (j < n)%nat → its !! j = Some e → is_Some (m !! e)) →
  (n ≤ length its)%nat →
  ∃ p : nat,
    (p ≤ n)%nat ∧
    enqueue_scan its m x t n = inr (Z.of_nat p - 1) ∧
    (∀ e te, (0 < p)%nat → its !! (p - 1)%nat = Some e → m !! e = Some te →
             ord_lt te (key e) t (key x)) ∧
    (∀ (j : nat) e te, (p ≤ j < n)%nat → its !! j = Some e → m !! e = Some te →
             ord_le t (key x) te (key e)).
Proof.
  induction n as [|n IH]; intros Hts Hn.
  - exists 0%nat. repeat split; [done|intros; lia..].
  - simpl. destruct (lookup_lt_is_Some_2 its n ltac:(lia)) as [e He].
    rewrite He. destruct (Hts n e ltac:(lia) He) as [te Hte]. rewrite Hte.
    destruct (goes_after t x te e) eqn:Hcmp.
    + exists (S n). repeat split; [done|f_equal; lia| |intros; lia].
      intros e' te' _. rewrite Nat.sub_succ, Nat.sub_0_r, He.
      intros [= <-]. rewrite Hte. intros [= <-]. by apply goes_after_lt.
    + destruct IH as (p & Hp & Hscan & Hbefore & Hafter); 
        [intros j e' Hj He'; apply (Hts j e'); [lia|done]|lia|].
      exists p. repeat split; [lia|done|done|].
      intros j e' te' Hj He' Hte'. destruct (decide (j = n)) as [->|].
      * rewrite He in He'. injection He' as <-. rewrite Hte in Hte'.
        injection Hte' as <-. by apply goes_after_false.
      * eapply Hafter; eauto. lia.
Qed.

Lemma enqueue_spec now q x timestamp :
  all_timestamped q →
  ∃ p : nat,
    (p ≤ length (items q))%nat ∧
    enqueue now q x timestamp =
      Returned tt (mkState (take p (items q) ++ x :: drop p (items q))
                     (<[x := effective_timestamp now q x timestamp]> (timestampMap q))) ∧
    (∀ e te, (0 < p)%nat → items q !! (p - 1)%nat = Some e →
             timestampMap q !! e = Some te →
             ord_lt te (key e) (effective_timestamp now q x timestamp) (key x)) ∧
    (∀ (j : nat) e te, (p ≤ j)%nat → items q !! j = Some e →
             timestampMap q !! e = Some te →
             ord_le (effective_timestamp now q x timestamp) (key x) te (key e)).
Proof.
  intros Hts.
  assert (default (default now timestamp) (timestampMap q !! x)
          = effective_timestamp now q x timestamp) as Heff.
  { unfold effective_timestamp. by destruct (timestampMap q !! x), timestamp. }
  destruct (enqueue_scan_spec (items q) (timestampMap q) x
              (effective_timestamp now q x timestamp) (length (items q)))
    as (p & Hp & Hscan & Hbefore & Hafter); [|done|].
  { intros j e _ He. apply Hts. eauto using list_elem_of_lookup_2. }
  exists p. split; [done|]. split; [|split; [done|]].
  - unfold enqueue. cbv zeta. rewrite Heff, Hscan. unfold splice_insert.
    replace (Z.to_nat (Z.of_nat p - 1 + 1)) with p by lia. done.
  - intros j e te Hj He Hte. eapply Hafter; eauto.
    split; [done|]. eauto using lookup_lt_Some.
Qed.

(** Enqueue never changes the timestamp of an item of the queue. *)
Lemma enqueue_timestamps_kept now q x timestamp y :
  all_timestamped q → y ∈ items q →
  <[x := effective_timestamp now q x timestamp]> (timestampMap q) !! y
  = timestampMap q !! y.
Proof.
  intros Hts Hy. destruct (decide (x = y)) as [->|Hne].
  - rewrite lookup_insert_eq. unfold effective_timestamp.
    by destruct (Hts y Hy) as [t ->].
  - by rewrite lookup_insert_ne.
Qed.

Lemma in_order_kept (m m' : gmap QueueItem Z) a b :
  m' !! a = m !! a → m' !! b = m !! b → in_order m a b → in_order m' a b.
Proof.
  intros Ha Hb (ta & tb & ? & ? & ?). exists ta, tb. by rewrite Ha, Hb.
Qed.

(** Enqueue keeps the queue sorted and timestamped, whatever is enqueued. *)
Lemma enqueue_sorted now q x timestamp :
  all_timestamped q → sort_invariant q →
  faulted (enqueue now q x timestamp) = false ∧
  all_timestamped (state_of (enqueue now q x timestamp)) ∧
  sort_invariant (state_of (enqueue now q x timestamp)).
Proof.
  intros Hts Hsorted.
  destruct (enqueue_spec now q x timestamp Hts) as (p & Hp & -> & Hbefore & Hafter).
  simpl. set (t := effective_timestamp now q x timestamp) in *.
  assert (∀ y, y ∈ items q → <[x:=t]> (timestampMap q) !! y = timestampMap q !! y)
    as Hkept by (intros; by apply enqueue_timestamps_kept).
  split; [done|]. split.
  - intros y Hy. simpl in *. rewrite splice_insert_perm in Hy.
    apply elem_of_cons in Hy as [->|Hy].
    + rewrite lookup_insert_eq. eauto.
    + rewrite Hkept by done. by apply Hts.
  - intros i a b. simpl. rewrite !lookup_splice_insert by done.
    intros Ha Hb. repeat case_decide; simplify_eq; try lia.
    + eapply in_order_kept; [apply Hkept..|by eapply Hsorted];
        eauto using list_elem_of_lookup_2.
    + destruct (Hts a) as [ta Hta]; [eauto using list_elem_of_lookup_2|].
      exists ta, t. rewrite lookup_insert_eq, Hkept by eauto using list_elem_of_lookup_2.
      repeat split; [done|]. apply ord_lt_le. eapply Hbefore; [lia| |done].
      by rewrite Nat.sub_succ, Nat.sub_0_r.
    + rewrite Nat.sub_succ, Nat.sub_0_r in Hb.
      destruct (Hts b) as [tb Htb]; [eauto using list_elem_of_lookup_2|].
      exists t, tb. rewrite lookup_insert_eq, Hkept by eauto using list_elem_of_lookup_2.
      repeat split; [done|]. eapply Hafter; [|done..]. lia.
    + rewrite Nat.sub_succ, Nat.sub_0_r in Hb.
      eapply in_order_kept; [apply Hkept..|];
        [eauto using list_elem_of_lookup_2..|].
      eapply (Hsorted (i - 1)%nat); [done|]. by replace (S (i - 1)) with i by lia.
Qed.

(** Enqueueing an item with a fresh key keeps keys unique. *)
Lemma enqueue_keys_unique now q x timestamp :
  all_timestamped q → keys_unique q → key_free q x →
  keys_unique (state_of (enqueue now q x timestamp)).
Proof.
  intros Hts Hkeys Hfree.
  destruct (enqueue_spec now q x timestamp Hts) as (p & Hp & -> & _).
  unfold keys_unique. simpl. rewrite splice_insert_perm, fmap_cons.
  by apply NoDup_cons.
Qed.

(** * The binary search *)

Lemma midpoint_bounds l r : l ≤ r → l ≤ midpoint l r ≤ r.
Proof.
  intros. unfold midpoint. rewrite Z.shiftr_div_pow2 by lia. change (2 ^ 1) with 2.
  pose proof (Z.div_mod (l + r) 2 ltac:(lia)).
  pose proof (Z.mod_pos_bound (l + r) 2 ltac:(lia)). lia.
Qed.

(** One turn of the loop. *)
Lemma search_step its m x tx l r :
  search its m x tx l r =
    if Z_le_dec l r then
      match at_index its (midpoint l r) with
      | None => inl missing_timestamp
      | Some h =>
          match m !! h with
          | None => inl missing_timestamp
          | Some th =>
              if direction x tx h th >? 0 then search its m x tx (midpoint l r + 1) r
              else if direction x tx h th <? 0 then search its m x tx l (midpoint l r - 1)
              else inr (midpoint l r)
          end
      end
    else inr (-1).
Proof.
  unfold midpoint. simp search.
  destruct (Z_le_dec l r); simp search; [|done].
  destruct (at_index its (Z.shiftr (l + r) 1)) as [h|]; simp search; [|done].
  destruct (m !! h); simp search; [|done]. cbv zeta. by simp search.
Qed.

Lemma at_index_Some {A} (arr : Datatypes.list A) (i : Z) (x : A) :
  at_index arr i = Some x ↔ 0 ≤ i ∧ arr !! Z.to_nat i = Some x.
Proof.
  unfold at_index. destruct (Z.ltb_spec i 0); [split; [done|lia]|split; [auto|tauto]].
Qed.

Lemma at_index_nat {A} (arr : Datatypes.list A) (i : nat) :
  at_index arr (Z.of_nat i) = arr !! i.
Proof.
  unfold at_index. destruct (Z.ltb_spec (Z.of_nat i) 0); [lia|].
  by rewrite Nat2Z.id.
Qed.

Lemma at_index_in_range {A} (arr : Datatypes.list A) (i : Z) :
  0 ≤ i < Z.of_nat (length arr) → is_Some (at_index arr i).
Proof.
  intros Hi. unfold at_index. destruct (Z.ltb_spec i 0); [lia|].
  apply lookup_lt_is_Some_2. lia.
Qed.

Lemma direction_zero x tx h th : direction x tx h th = 0 ↔ x = h.
Proof.
  unfold direction. case_decide; [done|].
  destruct (Z.eqb_spec (tx - th) 0); simpl; [|done].
  destruct (str_gt (key x) (key h)); done.
Qed.

Lemma direction_pos x tx h th :
  x ≠ h → direction x tx h th > 0 ↔ ord_lt th (key h) tx (key x).
Proof.
  intros Hne. unfold direction, ord_lt. case_decide; [done|].
  destruct (Z.eqb_spec (tx - th) 0); simpl.
  - destruct (str_gt (key x) (key h)); split; try lia; intuition (try lia; try done).
  - split; [lia|]. intros [?|[? _]]; lia.
Qed.

Lemma direction_neg x tx h th :
  x ≠ h → direction x tx h th < 0 ↔ ord_le tx (key x) th (key h).
Proof.
  intros Hne. unfold direction, ord_le. rewrite str_le_gt. case_decide; [done|].
  destruct (Z.eqb_spec (tx - th) 0); simpl.
  - destruct (str_gt (key x) (key h)); simpl; split; try lia; intuition (try lia; try done).
  - split; [lia|]. intros [?|[? _]]; lia.
Qed.

(** Induction along the turns of the loop. *)
Lemma search_loop_ind its m x tx (P : Z → Z → string + Z → Prop) :
  (∀ l r, r < l → P l r (inr (-1))) →
  (∀ l r, l ≤ r → at_index its (midpoint l r) = None →
     P l r (inl missing_timestamp)) →
  (∀ l r h, l ≤ r → at_index its (midpoint l r) = Some h → m !! h = None →
     P l r (inl missing_timestamp)) →
  (∀ l r h th, l ≤ r → at_index its (midpoint l r) = Some h → m !! h = Some th →
     direction x tx h th > 0 →
     P (midpoint l r + 1) r (search its m x tx (midpoint l r + 1) r) →
     P l r (search its m x tx (midpoint l r + 1) r)) →
  (∀ l r h th, l ≤ r → at_index its (midpoint l r) = Some h → m !! h = Some th →
     direction x tx h th < 0 →
     P l (midpoint l r - 1) (search its m x tx l (midpoint l r - 1)) →
     P l r (search its m x tx l (midpoint l r - 1))) →
  (∀ l r h th, l ≤ r → at_index its (midpoint l r) = Some h → m !! h = Some th →
     direction x tx h th = 0 → P l r (inr (midpoint l r))) →
  ∀ l r, P l r (search its m x tx l r).
Proof.
  intros Hexit Hundef Hmiss Hright Hleft Hhit l r.
  remember (Z.to_nat (r - l + 1)) as n eqn:Hn. revert l r Hn.
  induction n as [n IH] using lt_wf_ind. intros l r ->.
  rewrite search_step. destruct (Z_le_dec l r) as [Hlr|Hlr]; [|apply Hexit; lia].
  pose proof (midpoint_bounds l r Hlr) as Hmid.
  destruct (at_index its (midpoint l r)) as [h|] eqn:Hh; [|by apply Hundef].
  destruct (m !! h) as [th|] eqn:Hth; [|by eapply Hmiss].
  destruct (Z.gtb_spec (direction x tx h th) 0) as [Hd|Hd].
  { eapply Hright; eauto; [lia|]. eapply IH; [|done]. lia. }
  destruct (Z.ltb_spec (direction x tx h th) 0) as [Hd'|Hd'].
  { eapply Hleft; eauto. eapply IH; [|done]. lia. }
  eapply Hhit; eauto. lia.
Qed.

(** The only error the search throws. *)
Lemma search_error its m x tx l r e :
  search its m x tx l r = inl e → e = missing_timestamp.
Proof.
  revert l r. apply (search_loop_ind its m x tx (λ _ _ res, res = inl e → _));
    intros; simplify_eq; auto.
Qed.

(** A hit is the needle itself, inside the interval searched. *)
Lemma search_hit its m x tx l r i :
  search its m x tx l r = inr i →
  i = -1 ∨ (l ≤ i ≤ r ∧ at_index its i = Some x).
Proof.
  revert l r.
  apply (search_loop_ind its m x tx
           (λ l r res, res = inr i → i = -1 ∨ (l ≤ i ≤ r ∧ at_index its i = Some x))).
  - intros l r _ [= <-]. by left.
  - done.
  - done.
  - intros l r h th Hlr _ _ _ IH Hres. pose proof (midpoint_bounds l r Hlr).
    destruct (IH Hres) as [?|[? ?]]; [by left|right]. split; [lia|done].
  - intros l r h th Hlr _ _ _ IH Hres. pose proof (midpoint_bounds l r Hlr).
    destruct (IH Hres) as [?|[? ?]]; [by left|right]. split; [lia|done].
  - intros l r h th Hlr Hh _ Hd [= <-]. right.
    apply direction_zero in Hd as ->. split; [by apply midpoint_bounds|done].
Qed.

(** The search ends without a fault when the items it can meet have a
    timestamp. *)
Lemma search_returns its m x tx l r :
  (∀ h, h ∈ its → is_Some (m !! h)) →
  0 ≤ l → r < Z.of_nat (length its) →
  ∃ i, search its m x tx l r = inr i.
Proof.
  intros Hts. revert l r.
  apply (search_loop_ind its m x tx
           (λ l r res, 0 ≤ l → r < Z.of_nat (length its) → ∃ i, res = inr i)).
  - eauto.
  - intros l r Hlr Hnone Hl Hr. pose proof (midpoint_bounds l r Hlr).
    destruct (at_index_in_range its (midpoint l r)) as [? ?]; [lia|congruence].
  - intros l r h Hlr Hh Hnone Hl Hr. apply at_index_Some in Hh as [_ Hh].
    destruct (Hts h) as [? ?]; [eauto using list_elem_of_lookup_2|congruence].
  - intros l r h th Hlr _ _ _ IH Hl Hr. pose proof (midpoint_bounds l r Hlr).
    apply IH; lia.
  - intros l r h th Hlr _ _ _ IH Hl Hr. pose proof (midpoint_bounds l r Hlr).
    apply IH; lia.
  - eauto.
Qed.

(** * Sorted queues *)

Lemma in_order_trans m a b c : in_order m a b → in_order m b c → in_order m a c.
Proof.
  intros (ta & tb & Ha & Hb & Hab) (tb' & tc & Hb' & Hc & Hbc).
  simplify_eq. exists ta, tc. eauto using ord_le_trans.
Qed.

Lemma ord_le_antisym ta ka tb kb :
  ord_le ta ka tb kb → ord_le tb kb ta ka → ta = tb ∧ ka = kb.
Proof.
  rewrite (ord_le_cases ta). intros [Hlt|[-> ->]] Hle; [|done].
  destruct (ord_lt_irrefl ta ka). eauto using ord_lt_le_trans.
Qed.

(** The invariant on adjacent items orders every pair of positions. *)
Lemma sorted_pairwise q (i j : nat) a b :
  sort_invariant q → (i < j)%nat →
  items q !! i = Some a → items q !! j = Some b →
  in_order (timestampMap q) a b.
Proof.
  intros Hsorted. revert b. induction j as [|j IH]; intros b Hij Ha Hb; [lia|].
  destruct (decide (i = j)) as [->|Hne]; [by eapply Hsorted|].
  destruct (lookup_lt_is_Some_2 (items q) j) as [c Hc].
  { apply lookup_lt_Some in Hb. lia. }
  eapply in_order_trans; [apply IH; [lia|done..]|by eapply Hsorted].
Qed.

Lemma keys_unique_NoDup q : keys_unique q → NoDup (items q).
Proof. apply NoDup_fmap_1. Qed.

Lemma keys_unique_lookup q (i j : nat) a b :
  keys_unique q → items q !! i = Some a → items q !! j = Some b →
  key a = key b → i = j.
Proof.
  intros Hkeys Ha Hb Hab. eapply (NoDup_lookup _ i j (key a) Hkeys).
  - by rewrite list_lookup_fmap, Ha.
  - by rewrite list_lookup_fmap, Hb, Hab.
Qed.

(** In a well-formed queue the search finds every item, at its position. *)
Lemma search_finds q x tx (i : nat) :
  well_formed q → items q !! i = Some x → timestampMap q !! x = Some tx →
  ∀ l r, 0 ≤ l → r < Z.of_nat (length (items q)) → l ≤ Z.of_nat i ≤ r →
  search (items q) (timestampMap q) x tx l r = inr (Z.of_nat i).
Proof.
  intros [Hkeys Hts Hsorted] Hx Htx.
  apply (search_loop_ind (items q) (timestampMap q) x tx
           (λ l r res, 0 ≤ l → r < Z.of_nat (length (items q)) →
                       l ≤ Z.of_nat i ≤ r → res = inr (Z.of_nat i))).
  - intros; lia.
  - intros l r Hlr Hnone Hl Hr Hi. pose proof (midpoint_bounds l r Hlr).
    destruct (at_index_in_range (items q) (midpoint l r)) as [? ?]; [lia|congruence].
  - intros l r h Hlr Hh Hnone Hl Hr Hi. apply at_index_Some in Hh as [_ Hh].
    destruct (Hts h) as [? ?]; [eauto using list_elem_of_lookup_2|congruence].
  - intros l r h th Hlr Hh Hth Hd IH Hl Hr Hi.
    pose proof (midpoint_bounds l r Hlr). apply IH; [lia|lia|].
    apply at_index_Some in Hh as [Hmid Hh].
    assert (x ≠ h) as Hne.
    { intros <-. apply Z.gt_lt in Hd. revert Hd. replace (direction x tx x th) with 0; [lia|].
      symmetry. by apply direction_zero. }
    apply direction_pos in Hd; [|done].
    destruct (Z.lt_trichotomy (Z.of_nat i) (midpoint l r)) as [Hlt|[Heq|Hgt]]; [|subst|lia].
    + destruct (sorted_pairwise q i (Z.to_nat (midpoint l r)) x h)
        as (tx' & th' & ? & ? & Hle); [done|lia|done..|]. simplify_eq.
      destruct (ord_lt_irrefl tx (key x)). eauto using ord_le_lt_trans.
    + rewrite <- Heq, Nat2Z.id in Hh. congruence.
  - intros l r h th Hlr Hh Hth Hd IH Hl Hr Hi.
    pose proof (midpoint_bounds l r Hlr). apply IH; [lia|lia|].
    apply at_index_Some in Hh as [Hmid Hh].
    assert (x ≠ h) as Hne.
    { intros <-. revert Hd. replace (direction x tx x th) with 0; [lia|].
      symmetry. by apply direction_zero. }
    apply direction_neg in Hd; [|done].
    destruct (Z.lt_trichotomy (Z.of_nat i) (midpoint l r)) as [Hlt|[Heq|Hgt]]; [lia|subst|].
    + rewrite <- Heq, Nat2Z.id in Hh. congruence.
    + destruct (sorted_pairwise q (Z.to_nat (midpoint l r)) i h x)
        as (th' & tx' & ? & ? & Hle); [done|lia|done..|]. simplify_eq.
      destruct (ord_le_antisym _ _ _ _ Hd Hle) as [_ Hk].
      pose proof (keys_unique_lookup q _ _ _ _ Hkeys Hx Hh Hk). lia.
  - intros l r h th Hlr Hh Hth Hd Hl Hr Hi. apply direction_zero in Hd as <-.
    apply at_index_Some in Hh as [Hmid Hh]. f_equal.
    pose proof (NoDup_lookup _ _ _ _ (keys_unique_NoDup q Hkeys) Hx Hh). lia.
Qed.

(** ** indexOfItemInQueue *)

Lemma indexOfItemInQueue_error q x e :
  indexOfItemInQueue q x = inl e → e = missing_timestamp.
Proof.
  unfold indexOfItemInQueue. destruct (timestampMap q !! x); [|done].
  apply search_error.
Qed.

(** An index the search returns is a position of the needle itself. *)
Lemma indexOfItemInQueue_hit q x i :
  indexOfItemInQueue q x = inr i → i = -1 ∨ (0 ≤ i ∧ items q !! Z.to_nat i = Some x).
Proof.
  unfold indexOfItemInQueue. destruct (timestampMap q !! x); [|intros [= <-]; by left].
  intros [->|[_ Hx]]%search_hit; [by left|right]. by apply at_index_Some.
Qed.

Lemma indexOfItemInQueue_returns q x :
  all_timestamped q → ∃ i, indexOfItemInQueue q x = inr i.
Proof.
  intros Hts. unfold indexOfItemInQueue. destruct (timestampMap q !! x); [|eauto].
  apply search_returns; [done|lia..].
Qed.

Lemma indexOfItemInQueue_finds q x (i : nat) :
  well_formed q → items q !! i = Some x →
  indexOfItemInQueue q x = inr (Z.of_nat i).
Proof.
  intros Hwf Hx. unfold indexOfItemInQueue.
  destruct (wf_timestamped q Hwf x) as [tx Htx]; [eauto using list_elem_of_lookup_2|].
  rewrite Htx. apply lookup_lt_Some in Hx as Hi.
  apply search_finds; [done..|lia|lia|lia].
Qed.

Lemma indexOfItemInQueue_absent q x :
  all_timestamped q → x ∉ items q → indexOfItemInQueue q x = inr (-1).
Proof.
  intros Hts Hx. destruct (indexOfItemInQueue_returns q x Hts) as [i Hi].
  rewrite Hi. destruct (indexOfItemInQueue_hit q x i Hi) as [->|[_ Hin]]; [done|].
  destruct Hx. eauto using list_elem_of_lookup_2.
Qed.

(** * Taking an item out *)

Lemma lookup_delete_before {A} (l : Datatypes.list A) (i j : nat) :
  delete i l !! j = l !! before_delete i j.
Proof.
  unfold before_delete. case_decide.
  - by apply list_lookup_delete_lt.
  - apply list_lookup_delete_ge. lia.
Qed.

Lemma before_delete_ne i j : before_delete i j ≠ i.
Proof. unfold before_delete. case_decide; lia. Qed.

Lemma before_delete_mono i j : (before_delete i j < before_delete i (S j))%nat.
Proof. unfold before_delete. repeat case_decide; lia. Qed.

Lemma elem_of_delete_NoDup {A} (l : Datatypes.list A) (i : nat) x y :
  NoDup l → l !! i = Some x → y ∈ delete i l → y ∈ l ∧ y ≠ x.
Proof.
  intros Hnd Hx [j Hj]%list_elem_of_lookup. rewrite lookup_delete_before in Hj.
  split; [eauto using list_elem_of_lookup_2|]. intros ->.
  pose proof (NoDup_lookup _ _ _ _ Hnd Hx Hj). by eapply before_delete_ne.
Qed.

(** Taking the item at a position out of a well-formed queue, with its
    timestamp, leaves a well-formed queue. *)
Lemma delete_well_formed q (i : nat) x :
  well_formed q → items q !! i = Some x →
  well_formed (mkState (delete i (items q)) (delete x (timestampMap q))).
Proof.
  intros [Hkeys Hts Hsorted] Hx.
  pose proof (keys_unique_NoDup q Hkeys) as Hnd.
  split; unfold keys_unique, all_timestamped, sort_invariant; simpl.
  - rewrite list_fmap_delete. eapply sublist_NoDup; [done|apply sublist_delete].
  - intros y [Hy Hne]%(elem_of_delete_NoDup _ _ x); [|done..].
    rewrite lookup_delete_ne by done. by apply Hts.
  - intros j a b. rewrite !lookup_delete_before. intros Ha Hb.
    assert (a ≠ x ∧ b ≠ x) as [Hax Hbx].
    { split; intros ->.
      - pose proof (NoDup_lookup _ _ _ _ Hnd Hx Ha). by eapply before_delete_ne.
      - pose proof (NoDup_lookup _ _ _ _ Hnd Hx Hb). by eapply before_delete_ne. }
    eapply in_order_kept; [by apply lookup_delete_ne..|].
    eapply sorted_pairwise; [done|apply before_delete_mono|done..].
Qed.

(** ** dequeue *)

Lemma dequeue_well_formed q :
  well_formed q → well_formed (state_of (dequeue q)).
Proof.
  intros Hwf. unfold dequeue. destruct (items q) as [|x rest] eqn:Hq; [done|].
  simpl. pose proof (delete_well_formed q 0 x Hwf) as H.
  rewrite Hq in H. by apply H.
Qed.

(** ** remove *)

Lemma remove_present q x (i : nat) :
  well_formed q → items q !! i = Some x →
  remove q x = Returned tt (mkState (delete i (items q)) (delete x (timestampMap q))).
Proof.
  intros Hwf Hx. unfold remove. rewrite (indexOfItemInQueue_finds q x i Hwf Hx).
  destruct (Z.geb_spec (Z.of_nat i) 0); [|lia].
  by rewrite at_index_nat, Hx, splice_delete_delete, Nat2Z.id by lia.
Qed.

Lemma remove_absent q x :
  all_timestamped q → x ∉ items q → remove q x = Returned tt q.
Proof.
  intros Hts Hx. unfold remove. by rewrite indexOfItemInQueue_absent.
Qed.

Lemma remove_well_formed q x :
  well_formed q →
  faulted (remove q x) = false ∧ well_formed (state_of (remove q x)) ∧
  (x ∉ items (state_of (remove q x))) ∧
  (∀ y, y ∈ items (state_of (remove q x)) → y ∈ items q).
Proof.
  intros Hwf. destruct (decide (x ∈ items q)) as [[i Hi]%list_elem_of_lookup|Hx].
  - rewrite (remove_present q x i Hwf Hi). simpl.
    split; [done|]. split; [by apply delete_well_formed|].
    pose proof (keys_unique_NoDup q (wf_keys q Hwf)) as Hnd. split.
    + intros [_ ?]%(elem_of_delete_NoDup _ _ x); done.
    + intros y. apply list_elem_of_delete_inv.
  - rewrite (remove_absent q x (wf_timestamped q Hwf) Hx). done.
Qed.

(** ** requeue *)

Lemma requeue_well_formed now now' q x timestamp :
  well_formed q → key_own q x →
  faulted (requeue now now' q x timestamp) = false ∧
  well_formed (state_of (requeue now now' q x timestamp)).
Proof.
  intros Hwf Hown. unfold requeue. cbv zeta.
  destruct (remove_well_formed q x Hwf) as (Hok & [Hkeys Hts Hsorted] & Hx & Hsub).
  destruct (remove q x) as [[] q1|]; [clear Hok|done]. simpl in *.
  set (q2 := mkState (items q1) (<[x:=default now timestamp]> (timestampMap q1))).
  assert (∀ y, y ∈ items q1 → timestampMap q2 !! y = timestampMap q1 !! y) as Hkept.
  { intros y Hy. simpl. apply lookup_insert_ne. by intros ->. }
  assert (all_timestamped q2) as Hts2.
  { intros y Hy. simpl in Hy. rewrite Hkept by done. by apply Hts. }
  assert (sort_invariant q2) as Hsorted2.
  { intros i a b Ha Hb. simpl in *.
    eapply in_order_kept; [apply Hkept..|by eapply Hsorted];
      eauto using list_elem_of_lookup_2. }
  assert (key_free q2 x) as Hfree.
  { unfold key_free. simpl. intros (y & Hk & Hy)%list_elem_of_fmap.
    apply Hx. unfold key_own in Hown. rewrite Forall_forall in Hown.
    by rewrite <- (Hown y (Hsub y Hy)). }
  destruct (enqueue_sorted now' q2 x None Hts2 Hsorted2) as (? & ? & ?).
  split; [done|]. split; [|done..]. by apply enqueue_keys_unique.
Qed.

(** ** Sequences of calls that keep keys unique *)

Lemma call_well_formed now q c :
  well_formed q → call_ok q c →
  faulted (call now q c) = false ∧ well_formed (state_of (call now q c)).
Proof.
  intros Hwf Hok. destruct c as [x t| |x t|x]; simpl in *.
  - destruct (enqueue_sorted now q x t) as (? & ? & ?); [apply Hwf..|].
    split; [done|]. split; [|done..]. apply enqueue_keys_unique; [apply Hwf..|done].
  - pose proof (dequeue_well_formed q Hwf) as H. unfold dequeue in *.
    by destruct (items q).
  - by apply requeue_well_formed.
  - destruct (remove_well_formed q x Hwf) as (? & ? & _). done.
Qed.

Lemma makeQueue_well_formed : well_formed makeQueue.
Proof.
  split.
  - constructor.
  - by intros x ?%elem_of_nil.
  - by intros i a b ?.
Qed.

Lemma run_well_formed q cs :
  well_formed q → calls_ok q cs → no_fault q cs ∧ well_formed (run q cs).
Proof.
  revert q. induction cs as [|[now c] cs IH]; intros q Hwf Hok; [done|].
  destruct Hok as [Hc Hcs]. simpl.
  destruct (call_well_formed now q c Hwf Hc) as [Hf Hwf'].
  destruct (IH _ Hwf' Hcs). done.
Qed.

(** ** What enqueue and remove do to a well-formed queue *)

(** In a sorted queue every item before the insertion position is below
    the new item. *)
Lemma enqueue_spec_sorted now q x timestamp :
  all_timestamped q → sort_invariant q →
  ∃ p : nat,
    (p ≤ length (items q))%nat ∧
    enqueue now q x timestamp =
      Returned tt (mkState (take p (items q) ++ x :: drop p (items q))
                     (<[x := effective_timestamp now q x timestamp]> (timestampMap q))) ∧
    (∀ (j : nat) e te, (j < p)%nat → items q !! j = Some e →
             timestampMap q !! e = Some te →
             ord_lt te (key e) (effective_timestamp now q x timestamp) (key x)) ∧
    (∀ (j : nat) e te, (p ≤ j)%nat → items q !! j = Some e →
             timestampMap q !! e = Some te →
             ord_le (effective_timestamp now q x timestamp) (key x) te (key e)).
Proof.
  intros Hts Hsorted.
  destruct (enqueue_spec now q x timestamp Hts) as (p & Hp & Henq & Hbefore & Hafter).
  exists p. split; [done|]. split; [done|]. split; [|done].
  intros j e te Hj He Hte.
  destruct (lookup_lt_is_Some_2 (items q) (p - 1)) as [e' He']; [lia|].
  destruct (Hts e') as [te' Hte']; [eauto using list_elem_of_lookup_2|].
  pose proof (Hbefore e' te' ltac:(lia) He' Hte') as Hlt.
  destruct (decide (j = (p - 1)%nat)) as [->|Hne]; [by simplify_eq|].
  destruct (sorted_pairwise q j (p - 1) e e' Hsorted ltac:(lia) He He')
    as (? & ? & ? & ? & Hle). simplify_eq. eauto using ord_le_lt_trans.
Qed.

Lemma filter_ne_absent (l : Datatypes.list QueueItem) x :
  x ∉ l → filter (λ y, y ≠ x) l = l.
Proof.
  induction l as [|a l IH]; [done|]. intros [Hne Hx]%not_elem_of_cons.
  rewrite filter_cons_True by done. by rewrite IH.
Qed.

Lemma delete_as_filter (l : Datatypes.list QueueItem) (i : nat) x :
  NoDup l → l !! i = Some x → delete i l = filter (λ y, y ≠ x) l.
Proof.
  intros Hnd. revert i. induction Hnd as [|a l Ha Hnd IH]; intros [|i] Hx;
    simplify_eq/=.
  - rewrite filter_cons_False by naive_solver. by rewrite filter_ne_absent.
  - rewrite filter_cons_True.
    + f_equal. by apply IH.
    + intros ->. apply Ha. eauto using list_elem_of_lookup_2.
Qed.

(** What remove leaves of a well-formed queue. *)
Lemma remove_spec q x :
  well_formed q →
  ∃ m1, remove q x = Returned tt (mkState (filter (λ y, y ≠ x) (items q)) m1) ∧
        (∀ y, y ≠ x → m1 !! y = timestampMap q !! y) ∧
        (∀ t, <[x := t]> m1 = <[x := t]> (timestampMap q)).
Proof.
  intros Hwf. destruct (decide (x ∈ items q)) as [[i Hi]%list_elem_of_lookup|Hx].
  - exists (delete x (timestampMap q)). rewrite (remove_present q x i Hwf Hi).
    rewrite (delete_as_filter _ i x (keys_unique_NoDup _ (wf_keys _ Hwf)) Hi).
    split; [done|]. split.
    + intros y Hy. by apply lookup_delete_ne.
    + intros t. apply insert_delete_eq.
  - exists (timestampMap q). rewrite (remove_absent q x (wf_timestamped q Hwf) Hx).
    rewrite filter_ne_absent by done. by destruct q.
Qed.

(** ** Faults *)

(** What the scan has seen when it stops, whatever the queue. *)
Lemma enqueue_scan_stops its m x t (n : nat) i :
  enqueue_scan its m x t n = inr i →
  ∃ p : nat,
    i = Z.of_nat p - 1 ∧ (p ≤ n)%nat ∧
    (∀ e, (0 < p)%nat → its !! (p - 1)%nat = Some e →
          ∃ te, m !! e = Some te ∧ goes_after t x te e = true) ∧
    (∀ (j : nat) e, (p ≤ j < n)%nat → its !! j = Some e →
          ∃ te, m !! e = Some te ∧ goes_after t x te e = false).
Proof.
  induction n as [|n IH]; simpl.
  - intros [= <-]. exists 0%nat. repeat split; [lia|intros; lia..].
  - destruct (its !! n) as [e|] eqn:He; [|done].
    destruct (m !! e) as [te|] eqn:Hte; [|done].
    destruct (goes_after t x te e) eqn:Hgo.
    + intros [= <-]. exists (S n). repeat split; [lia|lia| |intros; lia].
      intros e' _. rewrite Nat.sub_succ, Nat.sub_0_r, He. intros [= <-]. eauto.
    + intros (p & -> & Hp & Hbefore & Hafter)%IH.
      exists p. repeat split; [lia|done|].
      intros j e' Hj He'. destruct (decide (j = n)) as [->|]; [|apply (Hafter j e'); [lia|done]].
      simplify_eq. eauto.
Qed.

(** The scan throws only for an item without a timestamp. *)
Lemma enqueue_scan_throws its m x t (n : nat) e :
  (n ≤ length its)%nat →
  enqueue_scan its m x t n = inl e →
  e = missing_timestamp ∧ ∃ h, h ∈ its ∧ m !! h = None.
Proof.
  induction n as [|n IH]; simpl; [done|]. intros Hn.
  destruct (lookup_lt_is_Some_2 its n ltac:(lia)) as [h Hh]. rewrite Hh.
  destruct (m !! h) as [te|] eqn:Hte.
  - destruct (goes_after t x te h); [done|]. apply IH. lia.
  - intros [= <-]. eauto using list_elem_of_lookup_2.
Qed.

Lemma effective_timestamp_default now q x timestamp :
  default (default now timestamp) (timestampMap q !! x)
  = effective_timestamp now q x timestamp.
Proof. unfold effective_timestamp. by destruct (timestampMap q !! x), timestamp. Qed.

Lemma enqueue_scan_missing q x t (i : nat) e (n : nat) :
  scan_reaches q x t i → items q !! i = Some e → timestampMap q !! e = None →
  (i < n ≤ length (items q))%nat →
  enqueue_scan (items q) (timestampMap q) x t n = inl missing_timestamp.
Proof.
  intros [_ Hreach] He Hnone. induction n as [|n IH]; intros Hn; [lia|].
  simpl. destruct (decide (n = i)) as [->|Hne].
  - by rewrite He, Hnone.
  - destruct (lookup_lt_is_Some_2 (items q) n) as [e' He']; [lia|].
    destruct (Hreach n e') as (te & Hte & Hgo); [lia|done|].
    rewrite He', Hte, Hgo. apply IH. lia.
Qed.

Lemma search_missing its m x tx l r i h :
  probes its m x tx l r i → at_index its i = Some h → m !! h = None →
  search its m x tx l r = inl missing_timestamp.
Proof.
  intros Hprobes Hh Hnone.
  induction Hprobes as [l r Hlr|l r h' th i Hlr Hh' Hth Hd _ IH|l r h' th i Hlr Hh' Hth Hd _ IH];
    rewrite search_step; (destruct (Z_le_dec l r); [|lia]).
  - by rewrite Hh, Hnone.
  - rewrite Hh', Hth. destruct (Z.gtb_spec (direction x tx h' th) 0); [|lia]. by apply IH.
  - rewrite Hh', Hth. destruct (Z.gtb_spec (direction x tx h' th) 0); [lia|].
    destruct (Z.ltb_spec (direction x tx h' th) 0); [|lia]. by apply IH.
Qed.

Lemma enqueue_thrown now q x timestamp e q' :
  enqueue now q x timestamp = Thrown e q' → e = missing_timestamp ∧ q' = q.
Proof.
  unfold enqueue. cbv zeta.
  generalize (default (default now timestamp) (timestampMap q !! x)). intros t.
  destruct (enqueue_scan _ _ _ _ _) as [e'|i] eqn:Hscan; [|done].
  intros [= <- <-]. split; [|done].
  revert Hscan. generalize (length (items q)). intros n.
  induction n as [|n IH]; simpl; [done|].
  repeat case_match; naive_solver.
Qed.

Lemma remove_thrown q x e q' :
  remove q x = Thrown e q' → e = missing_timestamp ∧ q' = q.
Proof.
  unfold remove. destruct (indexOfItemInQueue q x) as [e'|i] eqn:Hres.
  - intros [= <- <-]. eauto using indexOfItemInQueue_error.
  - by case_match.
Qed.

(** * Queues without an item in them twice *)

Lemma pairwise_filter {A} (R : A → A → Prop) (P : A → Prop)
    `{!∀ x, Decision (P x)} (l : Datatypes.list A) :
  (∀ (i j : nat) a b, (i < j)%nat → l !! i = Some a → l !! j = Some b → R a b) →
  ∀ (i j : nat) a b,
    (i < j)%nat → filter P l !! i = Some a → filter P l !! j = Some b → R a b.
Proof.
  induction l as [|c l IH]; intros Hl i j a b Hij Ha Hb; [done|].
  assert (∀ (i j : nat) a b, (i < j)%nat → l !! i = Some a → l !! j = Some b → R a b)
    as Hl'.
  { intros i' j' a' b' Hij' Ha' Hb'. apply (Hl (S i') (S j') a' b'); [lia|done..]. }
  destruct (decide (P c)) as [Hc|Hc].
  - rewrite filter_cons_True in Ha, Hb by done.
    destruct j as [|j]; [lia|]. destruct i as [|i]; simpl in *.
    + injection Ha as <-.
      apply list_elem_of_lookup_2, list_elem_of_filter in Hb as [_ Hb].
      apply list_elem_of_lookup in Hb as [k Hk]. apply (Hl 0%nat (S k) c b); [lia|done..].
    + apply (IH Hl' i j a b); [lia|done..].
  - rewrite filter_cons_False in Ha, Hb by done. by apply (IH Hl' i j a b).
Qed.

Lemma delete_once_filter (l : Datatypes.list QueueItem) (i : nat) x :
  l !! i = Some x → (length (filter (λ y, y = x) l) ≤ 1)%nat →
  delete i l = filter (λ y, y ≠ x) l.
Proof.
  revert i. induction l as [|a l IH]; intros i Hi Honce; [done|].
  destruct (decide (a = x)) as [->|Hne].
  - rewrite filter_cons_True in Honce by done. simpl in Honce.
    assert (x ∉ l) as Hx.
    { apply (filter_nil_not_elem_of (λ y, y = x)); [|done].
      apply nil_length_inv. lia. }
    destruct i as [|i]; [|destruct Hx; simpl in Hi; eauto using list_elem_of_lookup_2].
    simpl. rewrite filter_cons_False by naive_solver. by rewrite filter_ne_absent.
  - rewrite filter_cons_False in Honce by done.
    destruct i as [|i]; simpl in Hi; [congruence|].
    simpl. rewrite filter_cons_True by done. f_equal. by apply IH.
Qed.

Lemma filter_eq_absent (l : Datatypes.list QueueItem) x :
  x ∉ l → filter (λ y, y = x) l = [].
Proof.
  induction l as [|a l IH]; [done|]. intros [Hne Hx]%not_elem_of_cons.
  rewrite filter_cons_False by naive_solver. by apply IH.
Qed.

Lemma NoDup_at_most_once q x : NoDup (items q) → at_most_once q x.
Proof.
  unfold at_most_once. generalize (items q). intros l Hnd.
  induction Hnd as [|a l Ha Hnd IH]; [simpl; lia|].
  destruct (decide (a = x)) as [->|Hne].
  - rewrite filter_cons_True by done. simpl.
    rewrite filter_eq_absent by done. simpl. lia.
  - by rewrite filter_cons_False.
Qed.

(** The search throws only for an item of the queue without a timestamp. *)
Lemma search_throws its m x tx l r e :
  0 ≤ l → r < Z.of_nat (length its) →
  search its m x tx l r = inl e → ∃ h, h ∈ its ∧ m !! h = None.
Proof.
  revert l r.
  apply (search_loop_ind its m x tx
           (λ l r res, 0 ≤ l → r < Z.of_nat (length its) → res = inl e →
                       ∃ h, h ∈ its ∧ m !! h = None)).
  - done.
  - intros l r Hlr Hnone Hl Hr _. pose proof (midpoint_bounds l r Hlr).
    destruct (at_index_in_range its (midpoint l r)) as [? ?]; [lia|congruence].
  - intros l r h Hlr Hh Hnone _ _ _. apply at_index_Some in Hh as [_ Hh].
    eauto using list_elem_of_lookup_2.
  - intros l r h th Hlr _ _ _ IH Hl Hr Hres. pose proof (midpoint_bounds l r Hlr).
    apply IH; [lia|lia|done].
  - intros l r h th Hlr _ _ _ IH Hl Hr Hres. pose proof (midpoint_bounds l r Hlr).
    apply IH; [lia|lia|done].
  - done.
Qed.

Lemma indexOfItemInQueue_throws q x e :
  indexOfItemInQueue q x = inl e →
  ∃ h, h ∈ items q ∧ timestampMap q !! h = None.
Proof.
  unfold indexOfItemInQueue. destruct (timestampMap q !! x); [|done].
  apply search_throws; lia.
Qed.

Lemma located_index q x :
  located q x → ∃ i, 0 ≤ i ∧ indexOfItemInQueue q x = inr i.
Proof.
  unfold located, locatedb. destruct (indexOfItemInQueue q x) as [|i]; [done|].
  intros Hi%Z.leb_le. eauto.
Qed.

Lemma delete_orderly q (i : nat) x :
  orderly q → items q !! i = Some x →
  orderly (mkState (delete i (items q)) (delete x (timestampMap q))).
Proof.
  intros [Hnd Hts Hsorted] Hx.
  split; unfold all_timestamped, sort_invariant; simpl.
  - eapply sublist_NoDup; [done|apply sublist_delete].
  - intros y [Hy Hne]%(elem_of_delete_NoDup _ _ x); [|done..].
    rewrite lookup_delete_ne by done. by apply Hts.
  - intros j a b. rewrite !lookup_delete_before. intros Ha Hb.
    assert (a ≠ x ∧ b ≠ x) as [Hax Hbx].
    { split; intros ->.
      - pose proof (NoDup_lookup _ _ _ _ Hnd Hx Ha). by eapply before_delete_ne.
      - pose proof (NoDup_lookup _ _ _ _ Hnd Hx Hb). by eapply before_delete_ne. }
    eapply in_order_kept; [by apply lookup_delete_ne..|].
    eapply sorted_pairwise; [done|apply before_delete_mono|done..].
Qed.

Lemma well_formed_orderly q : well_formed q → orderly q.
Proof. intros [Hkeys Hts Hsorted]. split; [by apply keys_unique_NoDup|done..]. Qed.

(** Remove keeps a queue orderly, whether it finds the item or not. *)
Lemma remove_orderly q x :
  orderly q →
  ∃ q', remove q x = Returned tt q' ∧ orderly q' ∧
        (∀ y, y ∈ items q' → y ∈ items q) ∧
        ((x ∈ items q → located q x) → x ∉ items q').
Proof.
  intros Hord. pose proof Hord as [Hnd Hts Hsorted].
  destruct (indexOfItemInQueue_returns q x Hts) as [i Hi].
  unfold remove. rewrite Hi. destruct (Z.geb_spec i 0) as [Hge|Hlt].
  - destruct (indexOfItemInQueue_hit q x i Hi) as [->|[_ Hx]]; [lia|].
    eexists. split; [done|].
    rewrite (proj2 (at_index_Some (items q) i x)) by (split; [lia|done]).
    rewrite splice_delete_delete by lia. split; [by apply delete_orderly|]. split.
    + intros y. simpl. apply list_elem_of_delete_inv.
    + intros _. simpl. intros [_ ?]%(elem_of_delete_NoDup _ _ x); done.
  - exists q. split; [done|]. split; [done|]. split; [done|].
    intros Hlocated Hx. destruct (located_index q x (Hlocated Hx)) as (j & Hj & Hres).
    rewrite Hi in Hres. injection Hres as ->. lia.
Qed.

Lemma dequeue_orderly q : orderly q → orderly (state_of (dequeue q)).
Proof.
  intros Hord. unfold dequeue. destruct (items q) as [|x rest] eqn:Hq; [done|].
  simpl. pose proof (delete_orderly q 0 x Hord) as H.
  rewrite Hq in H. by apply H.
Qed.

Lemma enqueue_orderly now q x timestamp :
  orderly q → x ∉ items q →
  faulted (enqueue now q x timestamp) = false ∧
  orderly (state_of (enqueue now q x timestamp)).
Proof.
  intros [Hnd Hts Hsorted] Hx.
  destruct (enqueue_sorted now q x timestamp Hts Hsorted) as (Hnf & Hts' & Hsorted').
  split; [done|]. split; [|done..].
  destruct (enqueue_spec now q x timestamp Hts) as (p & _ & -> & _). simpl.
  rewrite splice_insert_perm. by apply NoDup_cons_2.
Qed.

Lemma requeue_orderly now now' q x timestamp :
  orderly q → (x ∈ items q → located q x) →
  faulted (requeue now now' q x timestamp) = false ∧
  orderly (state_of (requeue now now' q x timestamp)).
Proof.
  intros Hord Hlocated. unfold requeue. cbv zeta.
  destruct (remove_orderly q x Hord) as (q1 & -> & [Hnd Hts Hsorted] & _ & Habsent).
  specialize (Habsent Hlocated).
  set (q2 := mkState (items q1) (<[x:=default now timestamp]> (timestampMap q1))).
  assert (∀ y, y ∈ items q1 → timestampMap q2 !! y = timestampMap q1 !! y) as Hkept.
  { intros y Hy. simpl. apply lookup_insert_ne. by intros ->. }
  apply (enqueue_orderly now' q2 x None); [|done]. split; [done| |].
  - intros y Hy. simpl in Hy. rewrite Hkept by done. by apply Hts.
  - intros i a b Ha Hb. simpl in Ha, Hb.
    eapply in_order_kept; [apply Hkept..|by eapply Hsorted];
      eauto using list_elem_of_lookup_2.
Qed.

Lemma call_orderly now q c :
  orderly q → call_safe q c →
  faulted (call now q c) = false ∧ orderly (state_of (call now q c)).
Proof.
  intros Hord Hsafe. destruct c as [x t| |x t|x]; simpl in *.
  - by apply enqueue_orderly.
  - pose proof (dequeue_orderly q Hord) as H. unfold dequeue in *.
    by destruct (items q).
  - by apply requeue_orderly.
  - by destruct (remove_orderly q x Hord) as (q' & -> & ? & _).
Qed.

Lemma makeQueue_orderly : orderly makeQueue.
Proof. apply well_formed_orderly, makeQueue_well_formed. Qed.

Lemma run_orderly q cs :
  orderly q → calls_safe q cs → no_fault q cs ∧ orderly (run q cs).
Proof.
  revert q. induction cs as [|[now c] cs IH]; intros q Hord Hsafe; [done|].
  destruct Hsafe as [Hc Hcs]. simpl.
  destruct (call_orderly now q c Hord Hc) as [Hf Hord'].
  destruct (IH _ Hord' Hcs). done.
Qed.

(** In a sorted queue whose items all have a timestamp, the search finds
    an item that no earlier entry shares both timestamp and key with. *)
Lemma search_finds_first q x tx (i : nat) :
  all_timestamped q → sort_invariant q →
  items q !! i = Some x → timestampMap q !! x = Some tx →
  (∀ (j : nat) h, (j < i)%nat → items q !! j = Some h →
                  timestampMap q !! h = Some tx → key h ≠ key x) →
  ∀ l r, 0 ≤ l → r < Z.of_nat (length (items q)) → l ≤ Z.of_nat i ≤ r →
  ∃ index, search (items q) (timestampMap q) x tx l r = inr index ∧
           Z.of_nat i ≤ index ≤ r ∧ at_index (items q) index = Some x.
Proof.
  intros Hts Hsorted Hx Htx Hfirst.
  assert (∀ h th, x ≠ h → direction x tx h th ≠ 0) as Hdir.
  { intros h th Hne Hd. by apply direction_zero in Hd. }
  apply (search_loop_ind (items q) (timestampMap q) x tx
           (λ l r res, 0 ≤ l → r < Z.of_nat (length (items q)) →
                       l ≤ Z.of_nat i ≤ r →
                       ∃ index, res = inr index ∧ Z.of_nat i ≤ index ≤ r ∧
                                at_index (items q) index = Some x)).
  - intros; lia.
  - intros l r Hlr Hnone Hl Hr Hi. pose proof (midpoint_bounds l r Hlr).
    destruct (at_index_in_range (items q) (midpoint l r)) as [? ?]; [lia|congruence].
  - intros l r h Hlr Hh Hnone Hl Hr Hi. apply at_index_Some in Hh as [_ Hh].
    destruct (Hts h) as [? ?]; [eauto using list_elem_of_lookup_2|congruence].
  - intros l r h th Hlr Hh Hth Hd IH Hl Hr Hi.
    pose proof (midpoint_bounds l r Hlr). apply IH; [lia|lia|].
    apply at_index_Some in Hh as [Hmid Hh].
    assert (x ≠ h) as Hne.
    { intros <-. apply Z.gt_lt in Hd. revert Hd.
      replace (direction x tx x th) with 0; [lia|]. symmetry. by apply direction_zero. }
    apply direction_pos in Hd; [|done].
    destruct (Z.lt_trichotomy (Z.of_nat i) (midpoint l r)) as [Hlt|[Heq|Hgt]]; [|subst|lia].
    + destruct (sorted_pairwise q i (Z.to_nat (midpoint l r)) x h)
        as (tx' & th' & ? & ? & Hle); [done|lia|done..|]. simplify_eq.
      destruct (ord_lt_irrefl tx (key x)). eauto using ord_le_lt_trans.
    + rewrite <- Heq, Nat2Z.id in Hh. congruence.
  - intros l r h th Hlr Hh Hth Hd IH Hl Hr Hi.
    pose proof (midpoint_bounds l r Hlr).
    apply at_index_Some in Hh as [Hmid Hh].
    assert (x ≠ h) as Hne.
    { intros <-. revert Hd. replace (direction x tx x th) with 0; [lia|].
      symmetry. by apply direction_zero. }
    apply direction_neg in Hd; [|done].
    assert (Z.of_nat i < midpoint l r) as Hlt.
    { destruct (Z.lt_trichotomy (Z.of_nat i) (midpoint l r)) as [?|[Heq|Hgt]]; [done| |].
      - rewrite <- Heq, Nat2Z.id in Hh. congruence.
      - destruct (sorted_pairwise q (Z.to_nat (midpoint l r)) i h x)
          as (th' & tx' & ? & ? & Hle); [done|lia|done..|]. simplify_eq.
        destruct (ord_le_antisym _ _ _ _ Hd Hle) as [-> Hk].
        destruct (Hfirst (Z.to_nat (midpoint l r)) h); [lia|done..]. }
    destruct IH as (index & Hres & Hindex & Hat); [lia..|].
    exists index. split; [done|]. split; [lia|done].
  - intros l r h th Hlr Hh Hth Hd Hl Hr Hi. apply direction_zero in Hd as <-.
    pose proof (midpoint_bounds l r Hlr).
    exists (midpoint l r). split; [done|]. split; [|done]. split; [|lia].
    destruct (Z.le_gt_cases (Z.of_nat i) (midpoint l r)) as [|Hgt]; [done|].
    apply at_index_Some in Hh as [Hmid Hh].
    destruct (Hfirst (Z.to_nat (midpoint l r)) x); [lia|congruence..|done].
Qed.

(** What remove does when the item is in the queue at most once and the
    search finds it if it is there. *)
Lemma remove_outcome q x :
  at_most_once q x → (x ∈ items q → located q x) →
  match remove q x with
  | Returned _ q1 =>
      items q1 = filter (λ y, y ≠ x) (items q) ∧
      ∀ t, <[x := t]> (timestampMap q1) = <[x := t]> (timestampMap q)
  | Thrown _ _ => ∃ h, h ∈ items q ∧ timestampMap q !! h = None
  end.
Proof.
  intros Honce Hlocated. unfold remove.
  destruct (indexOfItemInQueue q x) as [e|i] eqn:Hi;
    [by apply indexOfItemInQueue_throws in Hi|].
  destruct (Z.geb_spec i 0) as [Hge|Hlt].
  - destruct (indexOfItemInQueue_hit q x i Hi) as [->|[_ Hx]]; [lia|].
    rewrite (proj2 (at_index_Some (items q) i x)) by (split; [lia|done]).
    simpl. rewrite splice_delete_delete by lia. split.
    + by apply delete_once_filter.
    + intros t. apply insert_delete_eq.
  - assert (x ∉ items q) as Hx.
    { intros Hx. destruct (located_index q x (Hlocated Hx)) as (j & Hj & Hres).
      rewrite Hi in Hres. injection Hres as ->. lia. }
    split; [|done]. by rewrite filter_ne_absent.
Qed.

(** The search finds an item that no earlier entry shares both timestamp
    and key with. *)
Lemma first_of_group_located q x (i : nat) :
  all_timestamped q → sort_invariant q → items q !! i = Some x →
  (∀ (j : nat) other, (j < i)%nat → items q !! j = Some other →
     timestampMap q !! other = timestampMap q !! x → key other ≠ key x) →
  located q x.
Proof.
  intros Hts Hsorted Hi Hfirst.
  destruct (Hts x) as [t Ht]; [eauto using list_elem_of_lookup_2|].
  apply lookup_lt_Some in Hi as Hlen.
  destruct (search_finds_first q x t i Hts Hsorted Hi Ht) with
    (l := 0) (r := Z.of_nat (length (items q)) - 1)
    as (index & Hres & Hindex & _); [|lia..|].
  { intros j other Hj Hother Hsame. apply (Hfirst j other Hj Hother). congruence. }
  unfold located, locatedb, indexOfItemInQueue. rewrite Ht, Hres. apply Z.leb_le. lia.
Qed.

(** Keeping keys unique within the queue is one way to keep it orderly. *)
Lemma key_own_located q x :
  orderly q → key_own q x → x ∈ items q → located q x.
Proof.
  intros [Hnd Hts Hsorted] Hown [i Hi]%list_elem_of_lookup.
  apply (first_of_group_located q x i Hts Hsorted Hi).
  intros j other Hj Hother _ Hkey. unfold key_own in Hown. rewrite Forall_forall in Hown.
  assert (other = x) as -> by (apply Hown; eauto using list_elem_of_lookup_2).
  pose proof (NoDup_lookup _ _ _ _ Hnd Hother Hi). lia.
Qed.

Lemma calls_ok_calls_safe q cs : well_formed q → calls_ok q cs → calls_safe q cs.
Proof.
  revert q. induction cs as [|[now c] cs IH]; intros q Hwf Hok; [done|].
  destruct Hok as [Hc Hcs]. split.
  - destruct c as [x t| |x t|x]; simpl in *; [|done| |done].
    + intros Hx. apply Hc. by apply list_elem_of_fmap_2.
    + by apply key_own_located; [apply well_formed_orderly|].
  - apply IH; [|done]. by apply call_well_formed.
Qed.

(** * The specification *)

(** ** The sort invariant *)

(** C1, as stated, fails, in two ways and without any fault.  Enqueueing an
    item that is already in the queue and then requeueing it leaves
    [A; B; A] with timestamps 300, 200, 300.  Requeueing a queued item
    that the binary search does not find (A, behind C of the same key and
    timestamp) leaves [A; C; A] with timestamps 50, 100, 50. *)
Lemma sort_invariant_broken_by_misuse :
  (let cs := [(0, Enqueue itemA (Some 100)); (0, Enqueue itemA (Some 100));
              (0, Enqueue itemB (Some 200)); (0, Requeue itemA (Some 300))] in
   no_fault makeQueue cs ∧
   items (run makeQueue cs) = [itemA; itemB; itemA] ∧
   timestampMap (run makeQueue cs) !! itemA = Some 300 ∧
   timestampMap (run makeQueue cs) !! itemB = Some 200 ∧
   ¬ sort_invariant (run makeQueue cs)) ∧
  (let cs := [(0, Enqueue itemA (Some 100)); (0, Enqueue itemC (Some 100));
              (0, Requeue itemA (Some 50))] in
   no_fault makeQueue cs ∧
   items (run makeQueue cs) = [itemA; itemC; itemA] ∧
   timestampMap (run makeQueue cs) !! itemA = Some 50 ∧
   timestampMap (run makeQueue cs) !! itemC = Some 100 ∧
   ¬ sort_invariant (run makeQueue cs)).
Proof.
  cbv zeta. split.
  - assert (items (run makeQueue
              [(0, Enqueue itemA (Some 100)); (0, Enqueue itemA (Some 100));
               (0, Enqueue itemB (Some 200)); (0, Requeue itemA (Some 300))])
            = [itemA; itemB; itemA]) as Hitems by (vm_compute; reflexivity).
    split; [by vm_compute|]. split; [done|].
    split; [by vm_compute|]. split; [by vm_compute|].
    intros Hsorted.
    destruct (Hsorted 0%nat itemA itemB) as (ta & tb & Ha & Hb & Hord);
      [by rewrite Hitems..|].
    vm_compute in Ha, Hb. simplify_eq. destruct Hord as [?|[? _]]; lia.
  - assert (items (run makeQueue
              [(0, Enqueue itemA (Some 100)); (0, Enqueue itemC (Some 100));
               (0, Requeue itemA (Some 50))])
            = [itemA; itemC; itemA]) as Hitems by (vm_compute; reflexivity).
    split; [by vm_compute|]. split; [done|].
    split; [by vm_compute|]. split; [by vm_compute|].
    intros Hsorted.
    destruct (Hsorted 1%nat itemC itemA) as (tc & ta & Hc & Ha & Hord);
      [by rewrite Hitems..|].
    vm_compute in Ha, Hc. simplify_eq. destruct Hord as [?|[? _]]; lia.
Qed.

(** C1, amended: from the empty queue, a sequence of calls in which no
    enqueue is of an item that is in the queue and no requeue is of a
    queued item that the binary search does not find runs without a fault
    and leaves every adjacent pair [a], [b] with
    [timestamp(a) < timestamp(b)], or [timestamp(a) = timestamp(b)] and
    [key(a) <= key(b)]. *)
Theorem sort_invariant_preserved cs :
  calls_safe makeQueue cs →
  no_fault makeQueue cs ∧
  ∀ (i : nat) a b,
    items (run makeQueue cs) !! i = Some a →
    items (run makeQueue cs) !! S i = Some b →
    ∃ ta tb,
      timestampMap (run makeQueue cs) !! a = Some ta ∧
      timestampMap (run makeQueue cs) !! b = Some tb ∧
      (ta < tb ∨ (ta = tb ∧ str_le (key a) (key b) = true)).
Proof.
  intros Hsafe.
  destruct (run_orderly makeQueue cs makeQueue_orderly Hsafe) as [Hnf Hord].
  split; [done|]. intros i a b Ha Hb. by apply (orderly_sorted _ Hord i a b).
Qed.

Lemma sort_invariant_preserved_witness :
  let cs := [(1, Enqueue itemA (Some 100)); (2, Enqueue itemB (Some 100));
             (3, Enqueue itemC (Some 50)); (4, Requeue itemC (Some 300));
             (5, Dequeue); (6, Enqueue itemX None); (7, Remove itemB);
             (8, Requeue itemA None)] in
  calls_safe makeQueue cs ∧
  items (run makeQueue [(1, Enqueue itemA (Some 100)); (2, Enqueue itemB (Some 100));
                        (3, Enqueue itemC (Some 50))]) = [itemC; itemA; itemB] ∧
  items (run makeQueue cs) = [itemX; itemA; itemC] ∧
  no_fault makeQueue cs ∧
  ∀ (i : nat) a b,
    items (run makeQueue cs) !! i = Some a →
    items (run makeQueue cs) !! S i = Some b →
    ∃ ta tb,
      timestampMap (run makeQueue cs) !! a = Some ta ∧
      timestampMap (run makeQueue cs) !! b = Some tb ∧
      (ta < tb ∨ (ta = tb ∧ str_le (key a) (key b) = true)).
Proof.
  cbv zeta.
  assert (calls_safe makeQueue
            [(1, Enqueue itemA (Some 100)); (2, Enqueue itemB (Some 100));
             (3, Enqueue itemC (Some 50)); (4, Requeue itemC (Some 300));
             (5, Dequeue); (6, Enqueue itemX None); (7, Remove itemB);
             (8, Requeue itemA None)]) as Hsafe.
  { by_evaluation. }
  split; [exact Hsafe|]. split; [vm_compute; reflexivity|].
  split; [vm_compute; reflexivity|].
  exact (sort_invariant_preserved _ Hsafe).
Defined.

(** ** The position enqueue inserts at *)

(** C2: in a sorted queue whose items all have a recorded timestamp, enqueue
    inserts the new item at the position [p] after the index [p - 1] its
    backward scan stops at: the scan went on past every item from [p] on
    (for each of them NOT ([newTimestamp > endTimestamp], or
    [newTimestamp = endTimestamp] and [newKey > endKey])), the item at
    [p - 1] made it stop and is below the new item under the ordering rule,
    as is every item before it, and [p] is 0 when the new item is
    smallest. *)
Theorem enqueue_insertion_position now q newItem timestamp :
  sort_invariant q → all_timestamped q →
  let newTimestamp := effective_timestamp now q newItem timestamp in
  ∃ p : nat,
    (p ≤ length (items q))%nat ∧
    enqueue_scan (items q) (timestampMap q) newItem newTimestamp (length (items q))
      = inr (Z.of_nat p - 1) ∧
    items (state_of (enqueue now q newItem timestamp))
      = take p (items q) ++ newItem :: drop p (items q) ∧
    items (state_of (enqueue now q newItem timestamp)) !! p = Some newItem ∧
    (∀ (j : nat) endItem endTimestamp,
       (p ≤ j)%nat → items q !! j = Some endItem →
       timestampMap q !! endItem = Some endTimestamp →
       ¬ (newTimestamp > endTimestamp ∨
          (newTimestamp = endTimestamp ∧ str_gt (key newItem) (key endItem) = true))) ∧
    (∀ (j : nat) endItem endTimestamp,
       (j < p)%nat → items q !! j = Some endItem →
       timestampMap q !! endItem = Some endTimestamp →
       (newTimestamp > endTimestamp ∨
          (newTimestamp = endTimestamp ∧ str_gt (key newItem) (key endItem) = true)) ∧
       ord_le endTimestamp (key endItem) newTimestamp (key newItem)) ∧
    ((∀ endItem endTimestamp,
        endItem ∈ items q → timestampMap q !! endItem = Some endTimestamp →
        ord_le newTimestamp (key newItem) endTimestamp (key endItem)) → p = 0%nat).
Proof.
  intros Hsorted Hts newTimestamp.
  destruct (enqueue_scan_spec (items q) (timestampMap q) newItem newTimestamp
              (length (items q))) as (p & Hp & Hscan & Hbefore & Hafter); [|done|].
  { intros j e _ He. apply Hts. eauto using list_elem_of_lookup_2. }
  assert (∀ (j : nat) e te, (j < p)%nat → items q !! j = Some e →
            timestampMap q !! e = Some te →
            ord_lt te (key e) newTimestamp (key newItem)) as Hbelow.
  { intros j e te Hj He Hte.
    destruct (lookup_lt_is_Some_2 (items q) (p - 1)) as [e' He']; [lia|].
    destruct (Hts e') as [te' Hte']; [eauto using list_elem_of_lookup_2|].
    pose proof (Hbefore e' te' ltac:(lia) He' Hte') as Hlt.
    destruct (decide (j = (p - 1)%nat)) as [->|Hne]; [by simplify_eq|].
    destruct (sorted_pairwise q j (p - 1) e e' Hsorted ltac:(lia) He He')
      as (? & ? & ? & ? & Hle). simplify_eq. eauto using ord_le_lt_trans. }
  exists p. split; [done|]. split; [done|].
  assert (items (state_of (enqueue now q newItem timestamp))
          = take p (items q) ++ newItem :: drop p (items q)) as Hitems.
  { unfold enqueue. cbv zeta.
    replace (default (default now timestamp) (timestampMap q !! newItem))
      with newTimestamp.
    - rewrite Hscan. simpl. unfold splice_insert.
      by replace (Z.to_nat (Z.of_nat p - 1 + 1)) with p by lia.
    - unfold newTimestamp, effective_timestamp.
      by destruct (timestampMap q !! newItem), timestamp. }
  split; [done|]. split; [|split; [|split]].
  - rewrite Hitems, lookup_splice_insert by done. repeat case_decide; (done || lia).
  - intros j e te Hj He Hte Hgo.
    assert (ord_le newTimestamp (key newItem) te (key e)) as Hle.
    { eapply Hafter; eauto. split; [done|]. eauto using lookup_lt_Some. }
    destruct (ord_lt_irrefl newTimestamp (key newItem)).
    eapply ord_le_lt_trans; [exact Hle|]. unfold ord_lt. intuition lia.
  - intros j e te Hj He Hte. pose proof (Hbelow j e te Hj He Hte) as Hlt.
    split; [|by apply ord_lt_le]. unfold ord_lt in Hlt. intuition lia.
  - intros Hsmallest. destruct p as [|p]; [done|].
    destruct (lookup_lt_is_Some_2 (items q) p) as [e He]; [lia|].
    destruct (Hts e) as [te Hte]; [eauto using list_elem_of_lookup_2|].
    destruct (ord_lt_irrefl te (key e)).
    eapply ord_lt_le_trans; [apply (Hbelow p e te); [lia|done..]|].
    apply Hsmallest; eauto using list_elem_of_lookup_2.
Qed.

Lemma enqueue_insertion_position_witness :
  let q := run makeQueue [(0, Enqueue itemA (Some 100)); (0, Enqueue itemB (Some 100));
                          (0, Enqueue itemX (Some 200))] in
  sort_invariant q ∧ all_timestamped q ∧
  items (state_of (enqueue 7 q itemD (Some 100))) = [itemA; itemB; itemD; itemX] ∧
  ∃ p : nat,
    (p ≤ length (items q))%nat ∧
    enqueue_scan (items q) (timestampMap q) itemD
      (effective_timestamp 7 q itemD (Some 100)) (length (items q))
      = inr (Z.of_nat p - 1) ∧
    items (state_of (enqueue 7 q itemD (Some 100)))
      = take p (items q) ++ itemD :: drop p (items q).
Proof.
  cbv zeta.
  set (q := run makeQueue [(0, Enqueue itemA (Some 100)); (0, Enqueue itemB (Some 100));
                           (0, Enqueue itemX (Some 200))]).
  assert (well_formed q) as [_ Hts Hsorted].
  { apply run_well_formed; [apply makeQueue_well_formed|].
    by_evaluation. }
  split; [done|]. split; [done|]. split; [vm_compute; reflexivity|].
  destruct (enqueue_insertion_position 7 q itemD (Some 100) Hsorted Hts)
    as (p & Hp & Hscan & Hitems & _).
  exists p. auto.
Defined.

(** ** Locating an item *)

(** C3, as stated, fails, in two ways.  After enqueue(A), enqueue(A),
    enqueue(B), dequeue() the queue is [A; B], its keys are pairwise
    distinct, A is at index 0 and has no recorded timestamp, and the
    search for A answers -1.  After enqueue(A), enqueue(C) (C of A's key
    and timestamp), requeue(A, 50), which the search for A misses,
    dequeue() and remove(C), the queue is [A], again without a timestamp
    for A, and the search for A answers -1. *)
Lemma locate_misses_item_after_misuse :
  (let q := run makeQueue [(0, Enqueue itemA (Some 100)); (0, Enqueue itemA (Some 100));
                           (0, Enqueue itemB (Some 200)); (0, Dequeue)] in
   items q = [itemA; itemB] ∧ NoDup (key <$> items q) ∧
   items q !! 0%nat = Some itemA ∧
   indexOfItemInQueue q itemA = inr (-1)) ∧
  (let q := run makeQueue [(0, Enqueue itemA (Some 100)); (0, Enqueue itemC (Some 100));
                           (0, Requeue itemA (Some 50)); (0, Dequeue);
                           (0, Remove itemC)] in
   items q = [itemA] ∧ NoDup (key <$> items q) ∧
   items q !! 0%nat = Some itemA ∧
   indexOfItemInQueue q itemA = inr (-1)).
Proof.
  cbv zeta. split.
  - split; [vm_compute; reflexivity|]. split; [by_evaluation|].
    split; vm_compute; reflexivity.
  - split; [vm_compute; reflexivity|]. split; [by_evaluation|].
    split; vm_compute; reflexivity.
Qed.

(** C3, amended: in every state that is reached from the empty queue by
    calls none of which enqueues an item that is in the queue or requeues
    a queued item that the binary search does not find, and in which the
    keys of the items are pairwise distinct, the search for an item of the
    queue returns the one position the item has. *)
Theorem locate_correct cs x (i : nat) :
  calls_safe makeQueue cs →
  NoDup (key <$> items (run makeQueue cs)) →
  items (run makeQueue cs) !! i = Some x →
  indexOfItemInQueue (run makeQueue cs) x = inr (Z.of_nat i) ∧
  ∀ j : nat, items (run makeQueue cs) !! j = Some x → j = i.
Proof.
  intros Hsafe Hkeys Hx.
  destruct (run_orderly makeQueue cs makeQueue_orderly Hsafe) as [_ [Hnd Hts Hsorted]].
  split; [by apply indexOfItemInQueue_finds|].
  intros j Hj. apply (NoDup_lookup _ j i x Hnd Hj Hx).
Qed.

Lemma locate_correct_witness :
  let cs := [(1, Enqueue itemA (Some 100)); (2, Enqueue itemB (Some 100));
             (3, Enqueue itemC (Some 50)); (4, Enqueue itemX None);
             (5, Dequeue); (6, Dequeue)] in
  calls_safe makeQueue cs ∧
  NoDup (key <$> items (run makeQueue cs)) ∧
  items (run makeQueue cs) = [itemA; itemB] ∧
  indexOfItemInQueue (run makeQueue cs) itemB = inr 1.
Proof.
  cbv zeta.
  assert (calls_safe makeQueue
            [(1, Enqueue itemA (Some 100)); (2, Enqueue itemB (Some 100));
             (3, Enqueue itemC (Some 50)); (4, Enqueue itemX None);
             (5, Dequeue); (6, Dequeue)]) as Hsafe.
  { by_evaluation. }
  assert (NoDup (key <$> items (run makeQueue
            [(1, Enqueue itemA (Some 100)); (2, Enqueue itemB (Some 100));
             (3, Enqueue itemC (Some 50)); (4, Enqueue itemX None);
             (5, Dequeue); (6, Dequeue)]))) as Hkeys.
  { by_evaluation. }
  split; [exact Hsafe|]. split; [exact Hkeys|]. split; [vm_compute; reflexivity|].
  refine (proj1 (locate_correct _ itemB 1 Hsafe Hkeys _)). vm_compute. reflexivity.
Defined.

(** C4, as stated, fails: with the two distinct items A and C, both of key
    "a" and timestamp 100, the queue is [C; A]; the search for A compares
    it with C, goes left and answers -1 although A is at index 1. *)
Lemma locate_misses_item_with_duplicate_order :
  let q := run makeQueue [(0, Enqueue itemA (Some 100)); (0, Enqueue itemC (Some 100))] in
  itemA ≠ itemC ∧ key itemA = key itemC ∧
  timestampMap q !! itemA = Some 100 ∧ timestampMap q !! itemC = Some 100 ∧
  items q = [itemC; itemA] ∧
  indexOfItemInQueue q itemA = inr (-1).
Proof.
  cbv zeta. split; [done|]. repeat split; vm_compute; reflexivity.
Qed.

(** C4, amended: an index the search returns holds the very item asked
    for, never another item with the same timestamp and key; and in a
    sorted queue whose items all have a timestamp the search does find the
    item asked for when no earlier entry of the queue has both its
    timestamp and its key, at the item's own position when the item is in
    the queue once.  So of the items that share timestamp and key the
    first is always found; for a later one the search may answer "not
    found". *)
Theorem locate_under_duplicate_order q needleItem :
  (∀ index,
     indexOfItemInQueue q needleItem = inr index → index ≠ -1 →
     0 ≤ index ∧ items q !! Z.to_nat index = Some needleItem) ∧
  (∀ i : nat,
     all_timestamped q → sort_invariant q →
     items q !! i = Some needleItem →
     (∀ (j : nat) other,
        (j < i)%nat → items q !! j = Some other →
        timestampMap q !! other = timestampMap q !! needleItem →
        key other ≠ key needleItem) →
     ∃ index : nat,
       indexOfItemInQueue q needleItem = inr (Z.of_nat index) ∧
       (i ≤ index)%nat ∧
       items q !! index = Some needleItem ∧
       (NoDup (items q) → index = i)).
Proof.
  split.
  - intros index Hres Hhit.
    by destruct (indexOfItemInQueue_hit q needleItem index Hres).
  - intros i Hts Hsorted Hi Hfirst.
    destruct (Hts needleItem) as [t Ht]; [eauto using list_elem_of_lookup_2|].
    apply lookup_lt_Some in Hi as Hlen.
    destruct (search_finds_first q needleItem t i Hts Hsorted Hi Ht) with
      (l := 0) (r := Z.of_nat (length (items q)) - 1)
      as (index & Hres & Hindex & Hat); [|lia..|].
    { intros j other Hj Hother Hsame. apply (Hfirst j other Hj Hother). congruence. }
    apply at_index_Some in Hat as [H0 Hat].
    exists (Z.to_nat index). rewrite Z2Nat.id by done.
    split; [unfold indexOfItemInQueue; by rewrite Ht|].
    split; [lia|]. split; [done|].
    intros Hnd. apply (NoDup_lookup _ _ _ _ Hnd Hat Hi).
Qed.

Lemma locate_under_duplicate_order_witness :
  let q := run makeQueue [(0, Enqueue itemB (Some 50)); (0, Enqueue itemA (Some 100));
                          (0, Enqueue itemC (Some 100))] in
  items q = [itemB; itemC; itemA] ∧
  all_timestamped q ∧ sort_invariant q ∧
  indexOfItemInQueue q itemC = inr 1 ∧
  indexOfItemInQueue q itemA = inr (-1) ∧
  ∃ index : nat,
    indexOfItemInQueue q itemC = inr (Z.of_nat index) ∧
    (1 ≤ index)%nat ∧
    items q !! index = Some itemC ∧
    (NoDup (items q) → index = 1%nat).
Proof.
  cbv zeta.
  set (q := run makeQueue [(0, Enqueue itemB (Some 50)); (0, Enqueue itemA (Some 100));
                           (0, Enqueue itemC (Some 100))]).
  assert (items q = [itemB; itemC; itemA]) as Hq by (vm_compute; reflexivity).
  assert (orderly q) as [_ Hts Hsorted].
  { apply run_orderly; [apply makeQueue_orderly|]. by_evaluation. }
  split; [exact Hq|]. split; [exact Hts|]. split; [exact Hsorted|].
  split; [vm_compute; reflexivity|]. split; [vm_compute; reflexivity|].
  apply (proj2 (locate_under_duplicate_order q itemC) 1%nat Hts Hsorted).
  - by rewrite Hq.
  - intros j other Hj Hother _. rewrite Hq in Hother.
    destruct j as [|j]; [|lia]. injection Hother as <-. done.
Defined.

(** ** The timestamp enqueue uses *)

(** C5: enqueue orders the new item by the timestamp already recorded for
    it, if there is one, and otherwise by the supplied timestamp, or by the
    current time when none is supplied; unless the scan throws on an item
    without a timestamp, it inserts the item at the position this
    effective timestamp gives it and records the timestamp for the item. *)
Theorem enqueue_timestamp_precedence now q newItem timestamp :
  ∃ effective : Z,
    (∀ recorded, timestampMap q !! newItem = Some recorded → effective = recorded) ∧
    (∀ supplied, timestampMap q !! newItem = None → timestamp = Some supplied →
                 effective = supplied) ∧
    (timestampMap q !! newItem = None → timestamp = None → effective = now) ∧
    match enqueue now q newItem timestamp with
    | Returned _ q' =>
        timestampMap q' = <[newItem := effective]> (timestampMap q) ∧
        timestampMap q' !! newItem = Some effective ∧
        ∃ p : nat,
          (p ≤ length (items q))%nat ∧
          items q' = take p (items q) ++ newItem :: drop p (items q) ∧
          (∀ endItem,
             (0 < p)%nat → items q !! (p - 1)%nat = Some endItem →
             ∃ endTimestamp,
               timestampMap q !! endItem = Some endTimestamp ∧
               ord_lt endTimestamp (key endItem) effective (key newItem)) ∧
          (∀ (j : nat) endItem,
             (p ≤ j)%nat → items q !! j = Some endItem →
             ∃ endTimestamp,
               timestampMap q !! endItem = Some endTimestamp ∧
               ord_le effective (key newItem) endTimestamp (key endItem))
    | Thrown e q' =>
        q' = q ∧ ∃ endItem, endItem ∈ items q ∧ timestampMap q !! endItem = None
    end.
Proof.
  exists (effective_timestamp now q newItem timestamp).
  split; [|split; [|split]].
  - intros recorded Hrec. unfold effective_timestamp. by rewrite Hrec.
  - intros supplied Hrec ->. unfold effective_timestamp. by rewrite Hrec.
  - intros Hrec ->. unfold effective_timestamp. by rewrite Hrec.
  - unfold enqueue. cbv zeta. rewrite effective_timestamp_default.
    destruct (enqueue_scan _ _ _ _ _) as [e|i] eqn:Hscan.
    + split; [done|]. by apply enqueue_scan_throws in Hscan as [_ ?].
    + apply enqueue_scan_stops in Hscan as (p & -> & Hp & Hbefore & Hafter).
      simpl. split; [done|]. split; [apply lookup_insert_eq|].
      exists p. split; [done|]. unfold splice_insert.
      replace (Z.to_nat (Z.of_nat p - 1 + 1)) with p by lia.
      split; [done|]. split.
      * intros e Hp' He. destruct (Hbefore e Hp' He) as (te & Hte & Hgo).
        exists te. split; [done|]. by apply goes_after_lt.
      * intros j e Hj He. destruct (Hafter j e) as (te & Hte & Hgo); [|done|].
        { split; [done|]. eauto using lookup_lt_Some. }
        exists te. split; [done|]. by apply goes_after_false.
Qed.

Lemma enqueue_timestamp_precedence_witness :
  let q := run makeQueue [(0, Enqueue itemA (Some 100)); (0, Enqueue itemB (Some 200))] in
  enqueue 7 q itemA (Some 300) = Returned tt (mkState [itemA; itemA; itemB] (timestampMap q)) ∧
  timestampMap (state_of (enqueue 7 q itemD (Some 300))) !! itemD = Some 300 ∧
  timestampMap (state_of (enqueue 7 q itemD None)) !! itemD = Some 7 ∧
  ∃ effective : Z,
    (∀ recorded, timestampMap q !! itemA = Some recorded → effective = recorded) ∧
    timestampMap (state_of (enqueue 7 q itemA (Some 300))) !! itemA = Some effective.
Proof.
  cbv zeta.
  set (q := run makeQueue [(0, Enqueue itemA (Some 100)); (0, Enqueue itemB (Some 200))]).
  split; [vm_compute; reflexivity|].
  split; [vm_compute; reflexivity|]. split; [vm_compute; reflexivity|].
  destruct (enqueue_timestamp_precedence 7 q itemA (Some 300))
    as (effective & Hrecorded & _ & _ & Henq).
  exists effective. split; [exact Hrecorded|].
  rewrite (Hrecorded 100) by (vm_compute; reflexivity). vm_compute. reflexivity.
Defined.

(** ** dequeue *)

(** C6: dequeue of a non-empty queue returns the item at the front, which
    in a sorted queue is in order before every other item, deletes its
    recorded timestamp and leaves the rest of the sequence as it was;
    dequeue of the empty queue returns nothing and changes nothing. *)
Theorem dequeue_front q :
  (items q = [] → dequeue q = Returned None q) ∧
  (∀ item rest,
     items q = item :: rest →
     dequeue q = Returned (Some item) (mkState rest (delete item (timestampMap q))) ∧
     (sort_invariant q → ∀ other, other ∈ rest → in_order (timestampMap q) item other)).
Proof.
  unfold dequeue. split.
  - by intros ->.
  - intros item rest Hq. rewrite Hq. split; [done|].
    intros Hsorted other [j Hj]%list_elem_of_lookup.
    apply (sorted_pairwise q 0 (S j) item other Hsorted); [lia|by rewrite Hq..].
Qed.

Lemma dequeue_front_witness :
  let q := run makeQueue [(0, Enqueue itemA (Some 100)); (0, Enqueue itemB (Some 100));
                          (0, Enqueue itemD (Some 50))] in
  items q = [itemD; itemA; itemB] ∧
  dequeue q = Returned (Some itemD) (mkState [itemA; itemB] (delete itemD (timestampMap q))) ∧
  dequeue makeQueue = Returned None makeQueue.
Proof.
  cbv zeta. split; [vm_compute; reflexivity|]. split.
  - refine (proj1 (proj2 (dequeue_front _) itemD [itemA; itemB] _)).
    vm_compute. reflexivity.
  - apply (proj1 (dequeue_front makeQueue)). reflexivity.
Defined.

(** ** remove *)

(** C7, as stated, fails: in the queue [A] left by enqueue(A), enqueue(A),
    dequeue() and a faulting requeue(X, 5), X is not in the queue but has a
    recorded timestamp, A has none, and remove(X) faults. *)
Lemma remove_of_absent_item_faults :
  let q := run makeQueue [(0, Enqueue itemA (Some 100)); (0, Enqueue itemA (Some 100));
                          (0, Dequeue); (0, Requeue itemX (Some 5))] in
  items q = [itemA] ∧ (itemX ∉ items q) ∧
  timestampMap q !! itemA = None ∧ timestampMap q !! itemX = Some 5 ∧
  remove q itemX = Thrown missing_timestamp q.
Proof.
  cbv zeta. split; [vm_compute; reflexivity|]. split.
  - by_evaluation.
  - repeat split; vm_compute; reflexivity.
Qed.

(** C7, amended: remove of an item that is not in the queue leaves the
    sequence [list()] returns, and the whole state, unchanged; it does not
    fault when the item has no recorded timestamp (such as one never
    enqueued) or when every item of the queue has a recorded timestamp. *)
Theorem remove_absent_noop q item :
  item ∉ items q →
  list (state_of (remove q item)) = list q ∧
  state_of (remove q item) = q ∧
  (timestampMap q !! item = None ∨ all_timestamped q →
   remove q item = Returned tt q).
Proof.
  intros Habsent.
  assert (state_of (remove q item) = q) as Hstate.
  { unfold remove. destruct (indexOfItemInQueue q item) as [e|i] eqn:Hres; [done|].
    destruct (indexOfItemInQueue_hit q item i Hres) as [->|[_ Hin]]; [done|].
    destruct Habsent. eauto using list_elem_of_lookup_2. }
  split; [by rewrite Hstate|]. split; [done|].
  intros [Hnone|Hts]; [|by apply remove_absent].
  unfold remove, indexOfItemInQueue. by rewrite Hnone.
Qed.

Lemma remove_absent_noop_witness :
  let q := run makeQueue [(0, Enqueue itemA (Some 100)); (0, Enqueue itemB (Some 200))] in
  (itemX ∉ items q) ∧ timestampMap q !! itemX = None ∧
  list (state_of (remove q itemX)) = [itemA; itemB] ∧
  remove q itemX = Returned tt q.
Proof.
  cbv zeta.
  set (q := run makeQueue [(0, Enqueue itemA (Some 100)); (0, Enqueue itemB (Some 200))]).
  assert (itemX ∉ items q) as Habsent.
  { by_evaluation. }
  assert (timestampMap q !! itemX = None) as Hnone by (vm_compute; reflexivity).
  destruct (remove_absent_noop q itemX Habsent) as (Hlist & _ & Hret).
  split; [exact Habsent|]. split; [exact Hnone|]. split.
  - rewrite Hlist. vm_compute. reflexivity.
  - apply Hret. left. exact Hnone.
Defined.

(** ** requeue *)

(** C8, as stated, fails: requeue does not take the item out when the
    binary search does not find it, or when the item is in the queue
    twice.  With A behind C of the same key and timestamp, requeue(A, 50)
    leaves the old entry of A where it was and gives [A; C; A]; with A
    enqueued twice, in [A; A; B], requeue(A, 300) takes one entry out and
    gives [A; B; A].  Neither is the other items with A inserted once. *)
Lemma requeue_leaves_item_in_place :
  (let q := run makeQueue [(0, Enqueue itemA (Some 100)); (0, Enqueue itemC (Some 100))] in
   items q = [itemC; itemA] ∧
   requeue 0 0 q itemA (Some 50) =
     Returned tt (mkState [itemA; itemC; itemA] (<[itemA := 50]> (timestampMap q))) ∧
   ∀ p : nat,
     [itemA; itemC; itemA] ≠
     take p (filter (λ y, y ≠ itemA) (items q))
     ++ itemA :: drop p (filter (λ y, y ≠ itemA) (items q))) ∧
  (let q := run makeQueue [(0, Enqueue itemA (Some 100)); (0, Enqueue itemA (Some 100));
                           (0, Enqueue itemB (Some 200))] in
   items q = [itemA; itemA; itemB] ∧
   requeue 0 0 q itemA (Some 300) =
     Returned tt (mkState [itemA; itemB; itemA] (<[itemA := 300]> (timestampMap q))) ∧
   ∀ p : nat,
     [itemA; itemB; itemA] ≠
     take p (filter (λ y, y ≠ itemA) (items q))
     ++ itemA :: drop p (filter (λ y, y ≠ itemA) (items q))).
Proof.
  cbv zeta. split.
  - split; [vm_compute; reflexivity|]. split; [vm_compute; reflexivity|].
    intros p.
    replace (filter _ _) with [itemC] by (vm_compute; reflexivity).
    by destruct p as [|[|p]].
  - split; [vm_compute; reflexivity|]. split; [vm_compute; reflexivity|].
    intros p.
    replace (filter _ _) with [itemB] by (vm_compute; reflexivity).
    by destruct p as [|[|p]].
Qed.

(** C8, amended: for an item that is in the queue at most once and that
    the binary search finds if it is in the queue, requeue with an
    explicit timestamp [t], unless it throws because an item of the queue
    has no timestamp, takes the item out from wherever it is (nothing to
    take out if it is absent), records [t] for it and inserts it at the
    position [t] gives it: the item before it is below ([t], key), as is,
    in a sorted queue, every item before it, and no item after it is.  The
    search does find the item in a sorted queue whose items all have a
    timestamp when no earlier entry has both its timestamp and its key.
    In any queue, a requeue that returns has recorded [t] for the item.  From
    [A] at 100 and [B] at 200, requeue of [A] at 300 gives [B; A] and
    records 300 for [A]. *)
Theorem requeue_relocates :
  (∀ now now' q item t,
     at_most_once q item → (item ∈ items q → located q item) →
     let others := filter (λ y, y ≠ item) (items q) in
     match requeue now now' q item (Some t) with
     | Returned _ q' =>
         timestampMap q' = <[item := t]> (timestampMap q) ∧
         timestampMap q' !! item = Some t ∧
         ∃ p : nat,
           (p ≤ length others)%nat ∧
           items q' = take p others ++ item :: drop p others ∧
           (∀ e, (0 < p)%nat → others !! (p - 1)%nat = Some e →
              ∃ te, timestampMap q !! e = Some te ∧ ord_lt te (key e) t (key item)) ∧
           (∀ (j : nat) e, (p ≤ j)%nat → others !! j = Some e →
              ∃ te, timestampMap q !! e = Some te ∧ ord_le t (key item) te (key e)) ∧
           (sort_invariant q →
            ∀ (j : nat) e, (j < p)%nat → others !! j = Some e →
              ∃ te, timestampMap q !! e = Some te ∧ ord_lt te (key e) t (key item))
     | Thrown _ _ =>
         ∃ endItem, endItem ∈ items q ∧ timestampMap q !! endItem = None
     end) ∧
  (∀ q item (i : nat),
     all_timestamped q → sort_invariant q → items q !! i = Some item →
     (∀ (j : nat) other,
        (j < i)%nat → items q !! j = Some other →
        timestampMap q !! other = timestampMap q !! item → key other ≠ key item) →
     located q item) ∧
  (∀ now now' q item t q',
     requeue now now' q item (Some t) = Returned tt q' →
     timestampMap q' !! item = Some t) ∧
  (∀ now now',
     let q := run makeQueue [(0, Enqueue itemA (Some 100)); (0, Enqueue itemB (Some 200))] in
     items q = [itemA; itemB] ∧
     list (state_of (requeue now now' q itemA (Some 300))) = [itemB; itemA] ∧
     timestampMap (state_of (requeue now now' q itemA (Some 300))) !! itemA = Some 300).
Proof.
  split; [|split; [|split; [|intros; cbv zeta; repeat split; vm_compute; reflexivity]]].
  2:{ intros q item i Hts Hsorted Hi Hfirst.
      by apply (first_of_group_located q item i). }
  2:{ intros now now' q item t q'. unfold requeue. cbv zeta.
      destruct (remove q item) as [[] q1|]; [|done]. unfold enqueue. cbv zeta. simpl.
      rewrite lookup_insert_eq. simpl. case_match; [done|].
      intros [= <-]. simpl. apply lookup_insert_eq. }
  intros now now' q item t Honce Hlocated others.
  pose proof (remove_outcome q item Honce Hlocated) as Hrem.
  unfold requeue. cbv zeta.
  destruct (remove q item) as [[] q1|e q1]; [|exact Hrem].
  destruct Hrem as [Hitems Hins]. simpl. rewrite Hitems, Hins. fold others.
  set (m2 := <[item:=t]> (timestampMap q)).
  assert (∀ e, e ∈ others → e ∈ items q ∧ m2 !! e = timestampMap q !! e) as Hkept.
  { intros e [Hne He]%list_elem_of_filter. split; [done|]. by apply lookup_insert_ne. }
  unfold enqueue. cbv zeta. simpl. fold m2.
  replace (m2 !! item) with (Some t) by (symmetry; apply lookup_insert_eq). simpl.
  destruct (enqueue_scan others m2 item t (length others)) as [e|i] eqn:Hscan.
  - apply enqueue_scan_throws in Hscan as (_ & h & Hh & Hnone); [|done].
    destruct (Hkept h Hh) as [Hin Hsame]. exists h. split; [done|]. by rewrite <- Hsame.
  - apply enqueue_scan_stops in Hscan as (p & -> & Hp & Hbefore & Hafter).
    assert (∀ e, (0 < p)%nat → others !! (p - 1)%nat = Some e →
              ∃ te, timestampMap q !! e = Some te ∧ ord_lt te (key e) t (key item))
      as Hbefore'.
    { intros e Hp' He. destruct (Hbefore e Hp' He) as (te & Hte & Hgo).
      exists te. destruct (Hkept e) as [_ <-]; [eauto using list_elem_of_lookup_2|].
      split; [done|]. by apply goes_after_lt. }
    split; [apply insert_insert_eq|]. split; [apply lookup_insert_eq|].
    exists p. split; [done|]. split.
    { unfold splice_insert. by replace (Z.to_nat (Z.of_nat p - 1 + 1)) with p by lia. }
    split; [done|]. split.
    + intros j e Hj He. destruct (Hafter j e) as (te & Hte & Hgo); [|done|].
      { split; [done|]. eauto using lookup_lt_Some. }
      exists te. destruct (Hkept e) as [_ <-]; [eauto using list_elem_of_lookup_2|].
      split; [done|]. by apply goes_after_false.
    + intros Hsorted j e Hj He.
      destruct (lookup_lt_is_Some_2 others (p - 1)) as [e' He']; [lia|].
      destruct (Hbefore' e' ltac:(lia) He') as (te' & Hte' & Hlt).
      destruct (decide (j = (p - 1)%nat)) as [->|Hne]; [simplify_eq; eauto|].
      destruct (pairwise_filter (in_order (timestampMap q)) (λ y, y ≠ item) (items q))
        with (i := j) (j := (p - 1)%nat) (a := e) (b := e')
        as (te & te'' & Hte & Hte'' & Hle); [|lia|done..|].
      { intros i' j' a b Hij Ha Hb. by apply (sorted_pairwise q i' j' a b). }
      simplify_eq. eauto using ord_le_lt_trans.
Qed.

Lemma requeue_relocates_witness :
  let q := run makeQueue [(0, Enqueue itemA (Some 100)); (0, Enqueue itemB (Some 200));
                          (0, Enqueue itemD (Some 400))] in
  at_most_once q itemA ∧ (itemA ∈ items q → located q itemA) ∧
  requeue 1 2 q itemA (Some 300) =
    Returned tt (mkState [itemB; itemA; itemD] (<[itemA := 300]> (timestampMap q))) ∧
  ∃ p : nat,
    [itemB; itemA; itemD] =
    take p (filter (λ y, y ≠ itemA) (items q))
    ++ itemA :: drop p (filter (λ y, y ≠ itemA) (items q)).
Proof.
  cbv zeta.
  set (q := run makeQueue [(0, Enqueue itemA (Some 100)); (0, Enqueue itemB (Some 200));
                           (0, Enqueue itemD (Some 400))]).
  assert (at_most_once q itemA) as Honce by by_evaluation.
  assert (itemA ∈ items q → located q itemA) as Hlocated.
  { intros _. vm_compute. reflexivity. }
  assert (requeue 1 2 q itemA (Some 300) =
          Returned tt (mkState [itemB; itemA; itemD] (<[itemA := 300]> (timestampMap q))))
    as Hreq by (vm_compute; reflexivity).
  split; [exact Honce|]. split; [exact Hlocated|]. split; [exact Hreq|].
  pose proof (proj1 requeue_relocates 1 2 q itemA 300 Honce Hlocated) as H.
  cbv zeta in H. rewrite Hreq in H.
  destruct H as (_ & _ & p & _ & Hitems & _). exists p. exact Hitems.
Defined.

(** ** Missing timestamps *)

(** C9: when the backward scan of enqueue, or the binary search of locate,
    reaches an item of the sequence that has no recorded timestamp, the
    call throws the missing-timestamp error, and enqueue and remove leave
    the sequence and the association exactly as they were when called; no
    other error is ever thrown.  A requeue that throws leaves the state as
    it was when the step that threw (its remove or its enqueue) was
    called. *)
Theorem missing_timestamp_fault :
  (∀ now q newItem timestamp (i : nat) endItem,
     scan_reaches q newItem (effective_timestamp now q newItem timestamp) i →
     items q !! i = Some endItem → timestampMap q !! endItem = None →
     enqueue now q newItem timestamp = Thrown missing_timestamp q) ∧
  (∀ q needleItem needleItemTimestamp index haystackItem,
     timestampMap q !! needleItem = Some needleItemTimestamp →
     probes (items q) (timestampMap q) needleItem needleItemTimestamp
       0 (Z.of_nat (length (items q)) - 1) index →
     at_index (items q) index = Some haystackItem →
     timestampMap q !! haystackItem = None →
     indexOfItemInQueue q needleItem = inl missing_timestamp ∧
     remove q needleItem = Thrown missing_timestamp q ∧
     ∀ now now' timestamp,
       requeue now now' q needleItem timestamp = Thrown missing_timestamp q) ∧
  (∀ now q newItem timestamp e q',
     enqueue now q newItem timestamp = Thrown e q' → e = missing_timestamp ∧ q' = q) ∧
  (∀ q item e q',
     remove q item = Thrown e q' → e = missing_timestamp ∧ q' = q) ∧
  (∀ now now' q item timestamp e q',
     requeue now now' q item timestamp = Thrown e q' →
     e = missing_timestamp ∧
     (q' = q ∨
      ∃ q1, remove q item = Returned tt q1 ∧
            q' = mkState (items q1) (<[item := default now timestamp]> (timestampMap q1)))).
Proof.
  split; [|split; [|split; [|split]]].
  - intros now q x ts i e Hreach He Hnone. unfold enqueue. cbv zeta.
    replace (default (default now ts) (timestampMap q !! x))
      with (effective_timestamp now q x ts)
      by (unfold effective_timestamp; by destruct (timestampMap q !! x), ts).
    rewrite (enqueue_scan_missing q x _ i e); [done..|].
    destruct Hreach as [Hi _]. lia.
  - intros q x tx i h Htx Hprobes Hh Hnone.
    assert (indexOfItemInQueue q x = inl missing_timestamp) as Hres.
    { unfold indexOfItemInQueue. rewrite Htx. by eapply search_missing. }
    assert (remove q x = Thrown missing_timestamp q) as Hrem.
    { unfold remove. by rewrite Hres. }
    split; [done|]. split; [done|]. intros. unfold requeue. by rewrite Hrem.
  - apply enqueue_thrown.
  - apply remove_thrown.
  - intros now now' q x ts e q'. unfold requeue. cbv zeta.
    destruct (remove q x) as [[] q1|e1 q1] eqn:Hrem.
    + intros [-> ->]%enqueue_thrown. split; [done|]. right. eauto.
    + intros [= <- <-]. apply remove_thrown in Hrem as [-> ->]. auto.
Qed.

Lemma missing_timestamp_fault_witness :
  let q := run makeQueue [(0, Enqueue itemA (Some 100)); (0, Enqueue itemA (Some 100));
                          (0, Dequeue); (0, Requeue itemX (Some 5))] in
  items q = [itemA] ∧ timestampMap q !! itemA = None ∧
  timestampMap q !! itemX = Some 5 ∧
  enqueue 9 q itemB (Some 50) = Thrown missing_timestamp q ∧
  remove q itemX = Thrown missing_timestamp q.
Proof.
  cbv zeta.
  set (q := run makeQueue [(0, Enqueue itemA (Some 100)); (0, Enqueue itemA (Some 100));
                           (0, Dequeue); (0, Requeue itemX (Some 5))]).
  assert (items q = [itemA]) as Hitems by (vm_compute; reflexivity).
  assert (timestampMap q !! itemA = None) as Hnone by (vm_compute; reflexivity).
  assert (timestampMap q !! itemX = Some 5) as Hx by (vm_compute; reflexivity).
  destruct missing_timestamp_fault as (Henqueue & Hlocate & _).
  split; [exact Hitems|]. split; [exact Hnone|]. split; [exact Hx|]. split.
  - apply (Henqueue 9 q itemB (Some 50) 0%nat itemA); [|by rewrite Hitems|exact Hnone].
    split; [rewrite Hitems; simpl; lia|].
    intros j e Hj He. rewrite Hitems in He. destruct j as [|j]; [lia|done].
  - refine (proj1 (proj2 (Hlocate q itemX 5 0 itemA Hx _ _ Hnone))).
    + rewrite Hitems. apply (probes_midpoint _ _ _ _ 0 0). lia.
    + by rewrite Hitems.
Defined.

(** ** The clock *)

(** C10: two runs of enqueue or requeue with an explicit timestamp, or of
    dequeue, remove or list, from equal states and with equal arguments
    give equal results and equal states, whatever the clock reads in each
    run; the scan and the search do not read the clock, so that a call
    without a timestamp is the call with the reading of the clock as its
    timestamp. *)
Theorem clock_independence q1 q2 item1 item2 t1 t2 :
  q1 = q2 → item1 = item2 → t1 = t2 →
  (∀ now1 now2, enqueue now1 q1 item1 (Some t1) = enqueue now2 q2 item2 (Some t2)) ∧
  (∀ now1 now1' now2 now2',
     requeue now1 now1' q1 item1 (Some t1) = requeue now2 now2' q2 item2 (Some t2)) ∧
  dequeue q1 = dequeue q2 ∧
  remove q1 item1 = remove q2 item2 ∧
  list q1 = list q2 ∧
  (∀ now now2, enqueue now q1 item1 None = enqueue now2 q2 item2 (Some now)) ∧
  (∀ now now' now2 now2',
     requeue now now' q1 item1 None = requeue now2 now2' q2 item2 (Some now)).
Proof.
  intros <- <- <-.
  assert (∀ now1 now1' now2 now2' t,
            requeue now1 now1' q1 item1 (Some t) = requeue now2 now2' q1 item1 (Some t))
    as Hrequeue.
  { intros. unfold requeue. cbv zeta. simpl.
    destruct (remove q1 item1) as [[] q|]; [|done].
    unfold enqueue. cbv zeta. simpl. by rewrite lookup_insert_eq. }
  split; [done|]. split; [intros; apply Hrequeue|].
  do 4 (split; [done|]). intros now now' now2 now2'.
  apply (Hrequeue now now' now2 now2' now).
Qed.

Lemma clock_independence_witness :
  let q := run makeQueue [(0, Enqueue itemA (Some 100)); (0, Enqueue itemB (Some 200))] in
  enqueue 1 q itemD (Some 150) = enqueue 2 q itemD (Some 150) ∧
  requeue 1 2 q itemA (Some 300) = requeue 3 4 q itemA (Some 300) ∧
  list (state_of (requeue 1 2 q itemA (Some 300))) = [itemB; itemA].
Proof.
  cbv zeta.
  set (q := run makeQueue [(0, Enqueue itemA (Some 100)); (0, Enqueue itemB (Some 200))]).
  destruct (clock_independence q q itemD itemD 150 150 eq_refl eq_refl eq_refl)
    as (Henqueue & _).
  destruct (clock_independence q q itemA itemA 300 300 eq_refl eq_refl eq_refl)
    as (_ & Hrequeue & _).
  split; [apply Henqueue|]. split; [apply Hrequeue|]. vm_compute. reflexivity.
Defined.

(** * Further properties of the methods *)

(** ** Helpers *)

(** The scan reads the association at the items of the queue only. *)
Lemma enqueue_scan_ext its (m m' : gmap QueueItem Z) x t (n : nat) :
  (∀ e, e ∈ its → m !! e = m' !! e) →
  enqueue_scan its m x t n = enqueue_scan its m' x t n.
Proof.
  intros Hagree. induction n as [|n IH]; simpl; [done|].
  destruct (its !! n) as [e|] eqn:He; [|done].
  rewrite <- (Hagree e) by eauto using list_elem_of_lookup_2.
  destruct (m !! e); [|done]. by rewrite IH.
Qed.

(** For an item with a recorded timestamp, enqueue looks neither at the
    supplied timestamp nor at the clock. *)
Lemma enqueue_recorded now now' q x timestamp timestamp' recorded :
  timestampMap q !! x = Some recorded →
  enqueue now q x timestamp = enqueue now' q x timestamp'.
Proof. intros Hrec. unfold enqueue. cbv zeta. by rewrite Hrec. Qed.

Lemma filter_ne_splice (l : Datatypes.list QueueItem) (p : nat) x :
  x ∉ l → filter (λ y, y ≠ x) (take p l ++ x :: drop p l) = l.
Proof.
  intros Hx. rewrite filter_app, filter_cons_False by naive_solver.
  rewrite <- filter_app, take_drop. by apply filter_ne_absent.
Qed.

(** What requeue does to a well-formed queue, with or without timestamp. *)
Lemma requeue_spec now now' q x timestamp :
  well_formed q → key_own q x →
  ∃ p : nat,
    (p ≤ length (filter (λ y, y ≠ x) (items q)))%nat ∧
    requeue now now' q x timestamp =
      enqueue now' (mkState (filter (λ y, y ≠ x) (items q))
                            (<[x := default now timestamp]> (timestampMap q))) x None ∧
    requeue now now' q x timestamp =
      Returned tt
        (mkState (take p (filter (λ y, y ≠ x) (items q))
                  ++ x :: drop p (filter (λ y, y ≠ x) (items q)))
                 (<[x := default now timestamp]> (timestampMap q))).
Proof.
  intros Hwf Hown. set (others := filter (λ y, y ≠ x) (items q)).
  destruct (remove_spec q x Hwf) as (m1 & Hrem & Hm1 & Hins).
  unfold requeue. cbv zeta. rewrite Hrem. simpl. fold others. rewrite Hins.
  set (q2 := mkState others (<[x:=default now timestamp]> (timestampMap q))).
  assert (all_timestamped q2) as Hts2.
  { intros y Hy. simpl in *. apply list_elem_of_filter in Hy as [Hne Hy].
    rewrite lookup_insert_ne by done. by apply (wf_timestamped q Hwf). }
  destruct (enqueue_spec now' q2 x None Hts2) as (p & Hp & Henq & _).
  exists p. split; [done|]. split; [done|]. rewrite Henq. simpl.
  unfold effective_timestamp. simpl. by rewrite lookup_insert_eq, insert_insert_eq.
Qed.

(** ** The association follows the queue *)

Lemma call_association_exact now q c :
  well_formed q → association_exact q → call_ok q c →
  association_exact (state_of (call now q c)).
Proof.
  intros Hwf Hexact Hok. destruct c as [x t| |x t|x]; simpl in *.
  - destruct (enqueue_spec now q x t (wf_timestamped q Hwf)) as (p & _ & -> & _).
    intros y. simpl. rewrite splice_insert_perm, elem_of_cons.
    destruct (decide (y = x)) as [->|Hne]; [by left|].
    rewrite lookup_insert_ne by done. right. by apply Hexact.
  - unfold dequeue. destruct (items q) as [|x rest] eqn:Hq; simpl; [done|].
    intros y [v Hv]. simpl in *. apply lookup_delete_Some in Hv as [Hne Hv].
    assert (y ∈ items q) as Hy by (apply Hexact; eauto).
    rewrite Hq in Hy. apply elem_of_cons in Hy as [->|Hy]; done.
  - destruct (requeue_spec now now q x t Hwf Hok) as (p & _ & _ & ->).
    intros y. simpl. rewrite splice_insert_perm, elem_of_cons, list_elem_of_filter.
    destruct (decide (y = x)) as [->|Hne]; [by left|].
    rewrite lookup_insert_ne by done. right. split; [done|]. by apply Hexact.
  - destruct (decide (x ∈ items q)) as [[i Hi]%list_elem_of_lookup|Hx].
    + rewrite (remove_present q x i Hwf Hi). simpl.
      rewrite (delete_as_filter _ i x (keys_unique_NoDup _ (wf_keys _ Hwf)) Hi).
      intros y [v Hv]. simpl in *. apply lookup_delete_Some in Hv as [Hne Hv].
      apply list_elem_of_filter. split; [done|]. apply Hexact. eauto.
    + by rewrite (remove_absent q x (wf_timestamped q Hwf) Hx).
Qed.

Lemma run_association_exact q cs :
  well_formed q → association_exact q → calls_ok q cs →
  association_exact (run q cs).
Proof.
  revert q. induction cs as [|[now c] cs IH]; intros q Hwf Hexact Hok; [done|].
  destruct Hok as [Hc Hcs]. simpl. apply IH; [|by apply call_association_exact|done].
  by apply call_well_formed.
Qed.

(** ** enqueue on its own *)

(** X1: on a queue whose items all have a recorded timestamp, enqueue of
    any item, be it already in the queue, returns; the new sequence is the
    old one with the item added once, no item of the old queue changes its
    timestamp, every item still has one, and a sorted queue stays sorted. *)
Theorem enqueue_keeps_order now q item timestamp :
  all_timestamped q →
  ∃ q',
    enqueue now q item timestamp = Returned tt q' ∧
    items q' ≡ₚ item :: items q ∧
    (∀ other, other ∈ items q →
              timestampMap q' !! other = timestampMap q !! other) ∧
    all_timestamped q' ∧
    (sort_invariant q → sort_invariant q').
Proof.
  intros Hts.
  destruct (enqueue_spec now q item timestamp Hts) as (p & Hp & Henq & _).
  eexists. split; [exact Henq|]. simpl.
  split; [apply splice_insert_perm|]. split; [|split].
  - intros other Hother. by apply enqueue_timestamps_kept.
  - intros y Hy. simpl in *. rewrite splice_insert_perm in Hy.
    apply elem_of_cons in Hy as [->|Hy]; [rewrite lookup_insert_eq; eauto|].
    rewrite enqueue_timestamps_kept by done. by apply Hts.
  - intros Hsorted.
    destruct (enqueue_sorted now q item timestamp Hts Hsorted) as (_ & _ & Hsorted').
    by rewrite Henq in Hsorted'.
Qed.

Lemma enqueue_keeps_order_witness :
  let q := run makeQueue [(0, Enqueue itemA (Some 100)); (0, Enqueue itemB (Some 200))] in
  all_timestamped q ∧
  ∃ q',
    enqueue 7 q itemA (Some 300) = Returned tt q' ∧
    items q' ≡ₚ itemA :: items q ∧
    all_timestamped q'.
Proof.
  cbv zeta.
  set (q := run makeQueue [(0, Enqueue itemA (Some 100)); (0, Enqueue itemB (Some 200))]).
  assert (well_formed q) as [_ Hts _].
  { apply run_well_formed; [apply makeQueue_well_formed|]. by_evaluation. }
  split; [exact Hts|].
  destruct (enqueue_keeps_order 7 q itemA (Some 300) Hts) as (q' & Henq & Hperm & _ & Hts' & _).
  exists q'. auto.
Defined.

(** X8: when the last item of the queue has a recorded timestamp and the
    new item goes after it, enqueue appends the new item at the end
    without looking at any other item (so it returns even if an earlier
    item has no timestamp); on the empty queue it makes the one-item
    queue. *)
Theorem enqueue_appends_at_tail now q newItem timestamp :
  let newTimestamp := effective_timestamp now q newItem timestamp in
  (items q = [] →
   enqueue now q newItem timestamp =
     Returned tt (mkState [newItem] (<[newItem := newTimestamp]> (timestampMap q)))) ∧
  (∀ endItem endTimestamp,
     last (items q) = Some endItem →
     timestampMap q !! endItem = Some endTimestamp →
     newTimestamp > endTimestamp ∨
       (newTimestamp = endTimestamp ∧ str_gt (key newItem) (key endItem) = true) →
     enqueue now q newItem timestamp =
       Returned tt (mkState (items q ++ [newItem])
                            (<[newItem := newTimestamp]> (timestampMap q)))).
Proof.
  intros newTimestamp. unfold enqueue. cbv zeta.
  rewrite effective_timestamp_default. fold newTimestamp. split.
  - by intros ->.
  - intros e te Hlast Hte Hafter. rewrite last_lookup in Hlast.
    destruct (length (items q)) as [|n] eqn:Hlen; simpl in Hlast.
    { by apply lookup_lt_Some in Hlast; lia. }
    simpl. rewrite Hlast, Hte.
    replace (goes_after newTimestamp newItem te e) with true.
    + unfold splice_insert. replace (Z.to_nat (Z.of_nat n + 1)) with (length (items q)) by lia.
      by rewrite take_ge, drop_all by lia.
    + symmetry. apply goes_after_lt. unfold ord_lt. intuition lia.
Qed.

Lemma enqueue_appends_at_tail_witness :
  let q := run makeQueue [(0, Enqueue itemA (Some 100)); (0, Enqueue itemA (Some 100));
                          (0, Enqueue itemB (Some 200)); (0, Dequeue)] in
  items q = [itemA; itemB] ∧ timestampMap q !! itemA = None ∧
  last (items q) = Some itemB ∧ timestampMap q !! itemB = Some 200 ∧
  enqueue 7 q itemD (Some 300) =
    Returned tt (mkState [itemA; itemB; itemD] (<[itemD := 300]> (timestampMap q))).
Proof.
  cbv zeta.
  set (q := run makeQueue [(0, Enqueue itemA (Some 100)); (0, Enqueue itemA (Some 100));
                           (0, Enqueue itemB (Some 200)); (0, Dequeue)]).
  assert (last (items q) = Some itemB) as Hlast by (vm_compute; reflexivity).
  assert (timestampMap q !! itemB = Some 200) as Hts by (vm_compute; reflexivity).
  split; [vm_compute; reflexivity|]. split; [vm_compute; reflexivity|].
  split; [exact Hlast|]. split; [exact Hts|].
  refine (eq_trans (proj2 (enqueue_appends_at_tail 7 q itemD (Some 300)) itemB 200 Hlast Hts _) _).
  - left. vm_compute. reflexivity.
  - vm_compute. reflexivity.
Defined.

(** ** The association *)

(** X2: in every state reached from the empty queue by calls that keep keys
    unique within the queue, no item is in the sequence twice and the
    association holds a timestamp for exactly the items of the sequence:
    none is missing and none is left behind. *)
Theorem association_tracks_items cs :
  calls_ok makeQueue cs →
  NoDup (items (run makeQueue cs)) ∧
  ∀ x, x ∈ items (run makeQueue cs) ↔ is_Some (timestampMap (run makeQueue cs) !! x).
Proof.
  intros Hok.
  destruct (run_well_formed makeQueue cs makeQueue_well_formed Hok) as [_ Hwf].
  split; [apply keys_unique_NoDup, Hwf|]. intros x. split.
  - apply (wf_timestamped _ Hwf).
  - apply run_association_exact; [apply makeQueue_well_formed| |done].
    intros y [v Hv]. simpl in Hv. by rewrite lookup_empty in Hv.
Qed.

Lemma association_tracks_items_witness :
  let cs := [(1, Enqueue itemA (Some 100)); (2, Enqueue itemB (Some 100));
             (3, Requeue itemA None); (4, Dequeue); (5, Remove itemX);
             (6, Requeue itemD (Some 7))] in
  calls_ok makeQueue cs ∧
  items (run makeQueue cs) = [itemD; itemB] ∧
  NoDup (items (run makeQueue cs)) ∧
  ∀ x, x ∈ items (run makeQueue cs) ↔ is_Some (timestampMap (run makeQueue cs) !! x).
Proof.
  cbv zeta.
  assert (calls_ok makeQueue
            [(1, Enqueue itemA (Some 100)); (2, Enqueue itemB (Some 100));
             (3, Requeue itemA None); (4, Dequeue); (5, Remove itemX);
             (6, Requeue itemD (Some 7))]) as Hok by by_evaluation.
  split; [exact Hok|]. split; [vm_compute; reflexivity|].
  exact (association_tracks_items _ Hok).
Defined.

(** ** remove *)

(** X3: remove of an item that is in a well-formed queue returns and takes
    out exactly that item: the other items stay, in their order, the queue
    is one shorter, and only the item's timestamp is deleted. *)
Theorem remove_takes_out q item :
  well_formed q → item ∈ items q →
  remove q item =
    Returned tt (mkState (filter (λ y, y ≠ item) (items q))
                         (delete item (timestampMap q))) ∧
  S (length (items (state_of (remove q item)))) = length (items q) ∧
  (item ∉ items (state_of (remove q item))) ∧
  timestampMap (state_of (remove q item)) !! item = None ∧
  (∀ other, other ≠ item →
     timestampMap (state_of (remove q item)) !! other = timestampMap q !! other).
Proof.
  intros Hwf [i Hi]%list_elem_of_lookup.
  pose proof (delete_as_filter _ i item (keys_unique_NoDup _ (wf_keys _ Hwf)) Hi) as Hfilter.
  rewrite (remove_present q item i Hwf Hi), Hfilter. simpl.
  split; [done|]. split; [|split; [|split]].
  - rewrite <- Hfilter, length_delete by eauto. apply lookup_lt_Some in Hi. lia.
  - by intros [? _]%list_elem_of_filter.
  - apply lookup_delete_eq.
  - intros other Hne. by apply lookup_delete_ne.
Qed.

Lemma remove_takes_out_witness :
  let q := run makeQueue [(0, Enqueue itemA (Some 100)); (0, Enqueue itemB (Some 100));
                          (0, Enqueue itemD (Some 50))] in
  well_formed q ∧ itemA ∈ items q ∧
  items q = [itemD; itemA; itemB] ∧
  remove q itemA = Returned tt (mkState [itemD; itemB] (delete itemA (timestampMap q))).
Proof.
  cbv zeta.
  set (q := run makeQueue [(0, Enqueue itemA (Some 100)); (0, Enqueue itemB (Some 100));
                           (0, Enqueue itemD (Some 50))]).
  assert (well_formed q) as Hwf.
  { apply run_well_formed; [apply makeQueue_well_formed|]. by_evaluation. }
  assert (itemA ∈ items q) as Hin by by_evaluation.
  split; [exact Hwf|]. split; [exact Hin|]. split; [vm_compute; reflexivity|].
  refine (eq_trans (proj1 (remove_takes_out q itemA Hwf Hin)) _).
  vm_compute. reflexivity.
Defined.

(** X12: on a well-formed queue, dequeue and remove of the front item
    leave the same state. *)
Theorem dequeue_is_remove_front q item rest :
  well_formed q → items q = item :: rest →
  dequeue q = Returned (Some item) (state_of (remove q item)) ∧
  remove q item = Returned tt (mkState rest (delete item (timestampMap q))).
Proof.
  intros Hwf Hq.
  assert (items q !! 0%nat = Some item) as Hi by (by rewrite Hq).
  rewrite (remove_present q item 0 Hwf Hi). unfold dequeue. by rewrite Hq.
Qed.

Lemma dequeue_is_remove_front_witness :
  let q := run makeQueue [(0, Enqueue itemA (Some 100)); (0, Enqueue itemB (Some 100))] in
  well_formed q ∧ items q = [itemA; itemB] ∧
  dequeue q = Returned (Some itemA) (state_of (remove q itemA)).
Proof.
  cbv zeta.
  set (q := run makeQueue [(0, Enqueue itemA (Some 100)); (0, Enqueue itemB (Some 100))]).
  assert (well_formed q) as Hwf.
  { apply run_well_formed; [apply makeQueue_well_formed|]. by_evaluation. }
  assert (items q = [itemA; itemB]) as Hq by (vm_compute; reflexivity).
  split; [exact Hwf|]. split; [exact Hq|].
  exact (proj1 (dequeue_is_remove_front q itemA [itemB] Hwf Hq)).
Defined.

(** ** enqueue, then another method *)

(** X4: remove undoes enqueue: after enqueue, on a well-formed queue, of an
    item that has no recorded timestamp and whose key no entry of the
    queue has, remove of that item gives back the state before the
    enqueue. *)
Theorem enqueue_remove_round_trip now q item timestamp :
  well_formed q → key_free q item → timestampMap q !! item = None →
  remove (state_of (enqueue now q item timestamp)) item = Returned tt q.
Proof.
  intros Hwf Hfree Hnone.
  destruct (call_well_formed now q (Enqueue item timestamp) Hwf Hfree) as [_ Hwf'].
  simpl in Hwf'.
  destruct (enqueue_spec now q item timestamp (wf_timestamped q Hwf))
    as (p & Hp & Henq & _).
  rewrite Henq in *. simpl in *.
  rewrite (remove_present _ item p Hwf').
  - simpl. rewrite delete_take_drop.
    rewrite take_app_length' by (by rewrite length_take_le).
    replace (S p) with (length (take p (items q)) + 1)%nat
      by (rewrite length_take_le; lia).
    rewrite <- drop_drop, drop_app_length. simpl. rewrite drop_0, take_drop.
    rewrite delete_insert_id by done. by destruct q.
  - simpl. rewrite lookup_splice_insert by done. repeat case_decide; (done || lia).
Qed.

Lemma enqueue_remove_round_trip_witness :
  let q := run makeQueue [(0, Enqueue itemA (Some 100)); (0, Enqueue itemB (Some 200))] in
  well_formed q ∧ key_free q itemD ∧ timestampMap q !! itemD = None ∧
  items (state_of (enqueue 7 q itemD (Some 150))) = [itemA; itemD; itemB] ∧
  remove (state_of (enqueue 7 q itemD (Some 150))) itemD = Returned tt q.
Proof.
  cbv zeta.
  set (q := run makeQueue [(0, Enqueue itemA (Some 100)); (0, Enqueue itemB (Some 200))]).
  assert (well_formed q) as Hwf.
  { apply run_well_formed; [apply makeQueue_well_formed|]. by_evaluation. }
  assert (key_free q itemD) as Hfree by by_evaluation.
  assert (timestampMap q !! itemD = None) as Hnone by (vm_compute; reflexivity).
  split; [exact Hwf|]. split; [exact Hfree|]. split; [exact Hnone|].
  split; [vm_compute; reflexivity|].
  exact (enqueue_remove_round_trip 7 q itemD (Some 150) Hwf Hfree Hnone).
Defined.

(** X5: after enqueue, on a well-formed queue, of an item whose key no
    entry of the queue has, the binary search finds the item, at the
    position enqueue put it. *)
Theorem enqueue_then_locate now q item timestamp :
  well_formed q → key_free q item →
  ∃ p : nat,
    items (state_of (enqueue now q item timestamp))
      = take p (items q) ++ item :: drop p (items q) ∧
    items (state_of (enqueue now q item timestamp)) !! p = Some item ∧
    indexOfItemInQueue (state_of (enqueue now q item timestamp)) item
      = inr (Z.of_nat p).
Proof.
  intros Hwf Hfree.
  destruct (call_well_formed now q (Enqueue item timestamp) Hwf Hfree) as [_ Hwf'].
  simpl in Hwf'.
  destruct (enqueue_spec now q item timestamp (wf_timestamped q Hwf))
    as (p & Hp & Henq & _).
  rewrite Henq in *. simpl in *. exists p. split; [done|].
  assert ((take p (items q) ++ item :: drop p (items q)) !! p = Some item) as Hi.
  { rewrite lookup_splice_insert by done. repeat case_decide; (done || lia). }
  split; [done|]. by apply indexOfItemInQueue_finds.
Qed.

Lemma enqueue_then_locate_witness :
  let q := run makeQueue [(0, Enqueue itemA (Some 100)); (0, Enqueue itemB (Some 200))] in
  well_formed q ∧ key_free q itemD ∧
  indexOfItemInQueue (state_of (enqueue 7 q itemD (Some 150))) itemD = inr 1 ∧
  ∃ p : nat,
    indexOfItemInQueue (state_of (enqueue 7 q itemD (Some 150))) itemD
      = inr (Z.of_nat p).
Proof.
  cbv zeta.
  set (q := run makeQueue [(0, Enqueue itemA (Some 100)); (0, Enqueue itemB (Some 200))]).
  assert (well_formed q) as Hwf.
  { apply run_well_formed; [apply makeQueue_well_formed|]. by_evaluation. }
  assert (key_free q itemD) as Hfree by by_evaluation.
  split; [exact Hwf|]. split; [exact Hfree|]. split; [vm_compute; reflexivity|].
  destruct (enqueue_then_locate 7 q itemD (Some 150) Hwf Hfree) as (p & _ & _ & Hloc).
  exists p. exact Hloc.
Defined.

(** X10: dequeue undoes enqueue of a smallest item: when every item of the
    queue has a timestamp and none is below the new item, which has no
    recorded timestamp, enqueue puts the new item at the front and the
    next dequeue returns it and gives back the state before the enqueue. *)
Theorem enqueue_smallest_dequeue_round_trip now q item timestamp :
  all_timestamped q → timestampMap q !! item = None →
  (∀ other otherTimestamp,
     other ∈ items q → timestampMap q !! other = Some otherTimestamp →
     let t := default now timestamp in
     t < otherTimestamp ∨ (t = otherTimestamp ∧ str_le (key item) (key other) = true)) →
  items (state_of (enqueue now q item timestamp)) = item :: items q ∧
  dequeue (state_of (enqueue now q item timestamp)) = Returned (Some item) q.
Proof.
  intros Hts Hnone Hsmallest.
  destruct (enqueue_spec now q item timestamp Hts) as (p & Hp & Henq & Hbefore & _).
  assert (effective_timestamp now q item timestamp = default now timestamp) as Heff.
  { unfold effective_timestamp. rewrite Hnone. by destruct timestamp. }
  rewrite Heff in *.
  assert (p = 0%nat) as ->.
  { destruct p as [|p]; [done|].
    destruct (lookup_lt_is_Some_2 (items q) p) as [e He]; [lia|].
    destruct (Hts e) as [te Hte]; [eauto using list_elem_of_lookup_2|].
    destruct (ord_lt_irrefl te (key e)).
    eapply ord_lt_le_trans.
    - apply (Hbefore e te); [lia| |done]. by rewrite Nat.sub_succ, Nat.sub_0_r.
    - apply (Hsmallest e te); eauto using list_elem_of_lookup_2. }
  rewrite Henq. simpl. rewrite drop_0. split; [done|].
  unfold dequeue. simpl. rewrite delete_insert_id by done. by destruct q.
Qed.

Lemma enqueue_smallest_dequeue_round_trip_witness :
  let q := run makeQueue [(0, Enqueue itemA (Some 100)); (0, Enqueue itemB (Some 200))] in
  all_timestamped q ∧ timestampMap q !! itemD = None ∧
  items (state_of (enqueue 7 q itemD None)) = [itemD; itemA; itemB] ∧
  dequeue (state_of (enqueue 7 q itemD None)) = Returned (Some itemD) q.
Proof.
  cbv zeta.
  set (q := run makeQueue [(0, Enqueue itemA (Some 100)); (0, Enqueue itemB (Some 200))]).
  assert (well_formed q) as [_ Hts _].
  { apply run_well_formed; [apply makeQueue_well_formed|]. by_evaluation. }
  assert (timestampMap q !! itemD = None) as Hnone by (vm_compute; reflexivity).
  split; [exact Hts|]. split; [exact Hnone|]. split; [vm_compute; reflexivity|].
  refine (proj2 (enqueue_smallest_dequeue_round_trip 7 q itemD None Hts Hnone _)).
  intros other t Hother Ht. cbv zeta. left. simpl.
  assert (items q = [itemA; itemB]) as Hq by (vm_compute; reflexivity).
  rewrite Hq in Hother.
  apply elem_of_cons in Hother as [->|Hother];
    [|apply elem_of_cons in Hother as [->|Hother]; [|by apply elem_of_nil in Hother]];
    vm_compute in Ht; injection Ht as <-; lia.
Defined.

(** ** requeue *)

(** X6: requeue is idempotent: on a well-formed queue where no other item
    has the item's key, a second requeue of the item with the same
    timestamp returns and leaves the state the first one left. *)
Theorem requeue_idempotent now1 now1' now2 now2' q item t :
  well_formed q → key_own q item →
  requeue now2 now2' (state_of (requeue now1 now1' q item (Some t))) item (Some t)
  = requeue now1 now1' q item (Some t).
Proof.
  intros Hwf Hown. set (others := filter (λ y, y ≠ item) (items q)).
  destruct (requeue_well_formed now1 now1' q item (Some t) Hwf Hown) as [_ Hwf'].
  destruct (requeue_spec now1 now1' q item (Some t) Hwf Hown) as (p & Hp & Henq & Hreq).
  fold others in Hp, Henq, Hreq. rewrite Hreq in Hwf' |- *. simpl in *.
  assert (item ∉ others) as Habsent by (by intros [? _]%list_elem_of_filter).
  set (q' := mkState (take p others ++ item :: drop p others)
                     (<[item:=t]> (timestampMap q))) in *.
  assert (key_own q' item) as Hown'.
  { unfold key_own in *. rewrite Forall_forall in *. intros y Hy. simpl in Hy.
    rewrite splice_insert_perm in Hy. apply elem_of_cons in Hy as [->|Hy]; [done|].
    apply Hown. by apply list_elem_of_filter in Hy as [_ ?]. }
  destruct (requeue_spec now2 now2' q' item (Some t) Hwf' Hown') as (_ & _ & -> & _).
  simpl. rewrite filter_ne_splice, insert_insert_eq by done.
  rewrite <- Hreq, Henq. simpl.
  apply (enqueue_recorded _ _ _ _ _ _ t). simpl. apply lookup_insert_eq.
Qed.

Lemma requeue_idempotent_witness :
  let q := run makeQueue [(0, Enqueue itemA (Some 100)); (0, Enqueue itemB (Some 200));
                          (0, Enqueue itemD (Some 400))] in
  well_formed q ∧ key_own q itemA ∧
  items (state_of (requeue 1 2 q itemA (Some 300))) = [itemB; itemA; itemD] ∧
  requeue 3 4 (state_of (requeue 1 2 q itemA (Some 300))) itemA (Some 300)
  = requeue 1 2 q itemA (Some 300).
Proof.
  cbv zeta.
  set (q := run makeQueue [(0, Enqueue itemA (Some 100)); (0, Enqueue itemB (Some 200));
                           (0, Enqueue itemD (Some 400))]).
  assert (well_formed q) as Hwf.
  { apply run_well_formed; [apply makeQueue_well_formed|]. by_evaluation. }
  assert (key_own q itemA) as Hown by by_evaluation.
  split; [exact Hwf|]. split; [exact Hown|]. split; [vm_compute; reflexivity|].
  exact (requeue_idempotent 1 2 3 4 q itemA 300 Hwf Hown).
Defined.

(** X7: requeue of an item that is not in the queue and has no recorded
    timestamp is enqueue of the item with the same timestamp argument
    (and the same reading of the clock), when every item of the queue has
    a timestamp. *)
Theorem requeue_absent_is_enqueue now now' q item timestamp :
  all_timestamped q → item ∉ items q → timestampMap q !! item = None →
  requeue now now' q item timestamp = enqueue now q item timestamp.
Proof.
  intros Hts Habsent Hnone. unfold requeue. cbv zeta.
  rewrite (remove_absent q item Hts Habsent). unfold enqueue. cbv zeta. simpl.
  rewrite lookup_insert_eq, Hnone. simpl.
  rewrite (enqueue_scan_ext (items q) _ (timestampMap q))
    by (intros e He; apply lookup_insert_ne; by intros ->).
  destruct (enqueue_scan_spec (items q) (timestampMap q) item
              (default now timestamp) (length (items q)))
    as (p & _ & -> & _); [|done|].
  { intros j e _ He. apply Hts. eauto using list_elem_of_lookup_2. }
  by rewrite insert_insert_eq.
Qed.

Lemma requeue_absent_is_enqueue_witness :
  let q := run makeQueue [(0, Enqueue itemA (Some 100)); (0, Enqueue itemB (Some 200))] in
  all_timestamped q ∧ (itemD ∉ items q) ∧ timestampMap q !! itemD = None ∧
  items (state_of (requeue 150 9 q itemD None)) = [itemA; itemD; itemB] ∧
  requeue 150 9 q itemD None = enqueue 150 q itemD None.
Proof.
  cbv zeta.
  set (q := run makeQueue [(0, Enqueue itemA (Some 100)); (0, Enqueue itemB (Some 200))]).
  assert (well_formed q) as [_ Hts _].
  { apply run_well_formed; [apply makeQueue_well_formed|]. by_evaluation. }
  assert (itemD ∉ items q) as Habsent by by_evaluation.
  assert (timestampMap q !! itemD = None) as Hnone by (vm_compute; reflexivity).
  split; [exact Hts|]. split; [exact Habsent|]. split; [exact Hnone|].
  split; [vm_compute; reflexivity|].
  exact (requeue_absent_is_enqueue 150 9 q itemD None Hts Habsent Hnone).
Defined.

(** ** The order of the queue *)

(** X11: in every state reached from the empty queue by calls that keep
    keys unique within the queue, every item is strictly below every
    later one under the ordering rule: timestamps never decrease along
    the sequence, and items with the same timestamp are in increasing
    order of their keys. *)
Theorem list_strictly_sorted cs (i j : nat) a b :
  calls_ok makeQueue cs → (i < j)%nat →
  list (run makeQueue cs) !! i = Some a →
  list (run makeQueue cs) !! j = Some b →
  ∃ ta tb,
    timestampMap (run makeQueue cs) !! a = Some ta ∧
    timestampMap (run makeQueue cs) !! b = Some tb ∧
    (ta < tb ∨ (ta = tb ∧ str_gt (key b) (key a) = true)).
Proof.
  intros Hok Hij Ha Hb. unfold list in *.
  destruct (run_well_formed makeQueue cs makeQueue_well_formed Hok) as [_ Hwf].
  destruct (sorted_pairwise _ i j a b (wf_sorted _ Hwf) Hij Ha Hb)
    as (ta & tb & Hta & Htb & Hle).
  exists ta, tb. split; [done|]. split; [done|].
  apply ord_le_cases in Hle as [Hlt|[_ Hkey]]; [done|].
  pose proof (keys_unique_lookup _ i j a b (wf_keys _ Hwf) Ha Hb Hkey). lia.
Qed.

Lemma list_strictly_sorted_witness :
  let cs := [(1, Enqueue itemA (Some 100)); (2, Enqueue itemB (Some 100));
             (3, Enqueue itemD (Some 50)); (4, Enqueue itemX None)] in
  calls_ok makeQueue cs ∧
  list (run makeQueue cs) = [itemX; itemD; itemA; itemB] ∧
  ∃ ta tb,
    timestampMap (run makeQueue cs) !! itemX = Some ta ∧
    timestampMap (run makeQueue cs) !! itemB = Some tb ∧
    (ta < tb ∨ (ta = tb ∧ str_gt (key itemB) (key itemX) = true)).
Proof.
  cbv zeta.
  assert (calls_ok makeQueue
            [(1, Enqueue itemA (Some 100)); (2, Enqueue itemB (Some 100));
             (3, Enqueue itemD (Some 50)); (4, Enqueue itemX None)]) as Hok by by_evaluation.
  split; [exact Hok|]. split; [vm_compute; reflexivity|].
  apply (list_strictly_sorted _ 0 3 itemX itemB Hok); [lia|vm_compute; reflexivity..].
Defined.

(** ** Emptying the queue *)

(** X9: dequeueing until the queue answers that it is empty, with at least
    as many tries as the queue is long, returns the items of the queue in
    the order of the sequence and leaves the empty sequence; the
    timestamps of the items that were in the queue are deleted and no
    other, so that nothing is left of an association that held no other
    item. *)
Theorem drain_yields_list (n : nat) q :
  (length (items q) ≤ n)%nat →
  (drain n q).1 = list q ∧
  list (drain n q).2 = [] ∧
  (∀ x, timestampMap (drain n q).2 !! x
        = if decide (x ∈ items q) then None else timestampMap q !! x) ∧
  (association_exact q → timestampMap (drain n q).2 = ∅).
Proof.
  unfold list. intros Hn.
  assert ((drain n q).1 = items q ∧ items (drain n q).2 = [] ∧
          ∀ x, timestampMap (drain n q).2 !! x
               = if decide (x ∈ items q) then None else timestampMap q !! x)
    as (Hitems & Hempty & Hmap).
  { revert q Hn. induction n as [|n IH]; intros q Hn.
    - destruct (items q) as [|y rest] eqn:Hq; [|simpl in Hn; lia].
      simpl. by rewrite Hq.
    - cbn [drain]. unfold dequeue. destruct (items q) as [|y rest] eqn:Hq.
      + cbn [fst snd]. by rewrite Hq.
      + destruct (IH (mkState rest (delete y (timestampMap q)))) as (H1 & H2 & H3).
        { cbn [items length] in *. lia. }
        destruct (drain n _) as [others q'']. cbn [fst snd items timestampMap] in *.
        split; [by rewrite H1|]. split; [done|]. intros x. rewrite H3.
        destruct (decide (x ∈ rest)) as [Hr|Hr].
        * rewrite decide_True by (by right). done.
        * destruct (decide (x = y)) as [->|Hne].
          -- rewrite decide_True by (by left). apply lookup_delete_eq.
          -- rewrite decide_False by (by intros [?|?]%elem_of_cons).
             by apply lookup_delete_ne. }
  split; [done|]. split; [done|]. split; [done|].
  intros Hexact. apply map_eq. intros x. rewrite Hmap, lookup_empty.
  case_decide as Hx; [done|].
  destruct (timestampMap q !! x) eqn:Hts; [|done]. destruct Hx. apply Hexact. eauto.
Qed.

Lemma drain_yields_list_witness :
  let q := run makeQueue [(0, Enqueue itemA (Some 100)); (0, Enqueue itemB (Some 100));
                          (0, Enqueue itemD (Some 50))] in
  (length (items q) ≤ 5)%nat ∧
  (drain 5 q).1 = [itemD; itemA; itemB] ∧
  (drain 5 q).1 = list q ∧
  list (drain 5 q).2 = [].
Proof.
  cbv zeta.
  set (q := run makeQueue [(0, Enqueue itemA (Some 100)); (0, Enqueue itemB (Some 100));
                           (0, Enqueue itemD (Some 50))]).
  assert (length (items q) ≤ 5)%nat as Hn by (vm_compute; lia).
  destruct (drain_yields_list 5 q Hn) as (Hitems & Hempty & _).
  split; [exact Hn|]. split; [vm_compute; reflexivity|]. auto.
Defined.

(** ** Enqueueing an item again *)

(** In a sorted queue, what is above the item at a position is above every
    item before that position. *)
Lemma below_last_below_all q t k (p : nat) :
  all_timestamped q → sort_invariant q → (p ≤ length (items q))%nat →
  (∀ e te, (0 < p)%nat → items q !! (p - 1)%nat = Some e →
           timestampMap q !! e = Some te → ord_lt te (key e) t k) →
  ∀ (j : nat) e te, (j < p)%nat → items q !! j = Some e →
           timestampMap q !! e = Some te → ord_lt te (key e) t k.
Proof.
  intros Hts Hsorted Hp Hbefore j e te Hj He Hte.
  destruct (lookup_lt_is_Some_2 (items q) (p - 1)) as [e' He']; [lia|].
  destruct (Hts e') as [te' Hte']; [eauto using list_elem_of_lookup_2|].
  pose proof (Hbefore e' te' ltac:(lia) He' Hte') as Hlt.
  destruct (decide (j = (p - 1)%nat)) as [->|Hne]; [by simplify_eq|].
  destruct (sorted_pairwise q j (p - 1) e e' Hsorted ltac:(lia) He He')
    as (? & ? & ? & ? & Hle). simplify_eq. eauto using ord_le_lt_trans.
Qed.

(** X13: enqueue does not refuse an item that has a recorded timestamp: on
    a queue whose items all have a timestamp it returns, puts one more
    entry for the item into the sequence, leaves the association as it
    was, and does the same whatever timestamp is supplied and whatever the
    clock reads; in a sorted queue the new entry comes before every entry
    the item already has. *)
Theorem enqueue_again_duplicates now q item timestamp recorded :
  all_timestamped q → timestampMap q !! item = Some recorded →
  ∃ p : nat,
    (p ≤ length (items q))%nat ∧
    enqueue now q item timestamp =
      Returned tt (mkState (take p (items q) ++ item :: drop p (items q))
                           (timestampMap q)) ∧
    (∀ now' timestamp', enqueue now' q item timestamp' = enqueue now q item timestamp) ∧
    (sort_invariant q → ∀ i : nat, items q !! i = Some item → (p ≤ i)%nat).
Proof.
  intros Hts Hrec.
  assert (effective_timestamp now q item timestamp = recorded) as Heff.
  { unfold effective_timestamp. by rewrite Hrec. }
  destruct (enqueue_spec now q item timestamp Hts) as (p & Hp & Henq & Hbefore & _).
  rewrite Heff in Henq, Hbefore.
  exists p. split; [done|]. split; [|split].
  - rewrite Henq. by rewrite insert_id.
  - intros now' timestamp'. by apply (enqueue_recorded _ _ _ _ _ _ recorded).
  - intros Hsorted i Hi. destruct (decide (i < p)%nat) as [Hi'|]; [|lia].
    destruct (ord_lt_irrefl recorded (key item)).
    by apply (below_last_below_all q recorded (key item) p Hts Hsorted Hp Hbefore
                i item recorded).
Qed.

Lemma enqueue_again_duplicates_witness :
  let q := run makeQueue [(0, Enqueue itemD (Some 50)); (0, Enqueue itemA (Some 100));
                          (0, Enqueue itemB (Some 200))] in
  all_timestamped q ∧ timestampMap q !! itemA = Some 100 ∧
  enqueue 7 q itemA (Some 300) =
    Returned tt (mkState [itemD; itemA; itemA; itemB] (timestampMap q)) ∧
  ∃ p : nat,
    enqueue 7 q itemA (Some 300) =
      Returned tt (mkState (take p (items q) ++ itemA :: drop p (items q))
                           (timestampMap q)).
Proof.
  cbv zeta.
  set (q := run makeQueue [(0, Enqueue itemD (Some 50)); (0, Enqueue itemA (Some 100));
                           (0, Enqueue itemB (Some 200))]).
  assert (well_formed q) as [_ Hts _].
  { apply run_well_formed; [apply makeQueue_well_formed|]. by_evaluation. }
  assert (timestampMap q !! itemA = Some 100) as Hrec by (vm_compute; reflexivity).
  split; [exact Hts|]. split; [exact Hrec|]. split; [vm_compute; reflexivity|].
  destruct (enqueue_again_duplicates 7 q itemA (Some 300) 100 Hts Hrec)
    as (p & _ & Henq & _).
  exists p. exact Henq.
Defined.

(** ** Moving an item to the end *)

(** X14: requeue with a timestamp above the timestamp of every other item
    moves the item to the end of a well-formed queue (or puts it there, if
    it was not in the queue), after the other items in their order. *)
Theorem requeue_moves_to_tail now now' q item t :
  well_formed q →
  (∀ other otherTimestamp,
     other ∈ items q → other ≠ item →
     timestampMap q !! other = Some otherTimestamp → otherTimestamp < t) →
  requeue now now' q item (Some t) =
    Returned tt (mkState (filter (λ y, y ≠ item) (items q) ++ [item])
                         (<[item := t]> (timestampMap q))).
Proof.
  intros Hwf Hlatest. set (others := filter (λ y, y ≠ item) (items q)).
  destruct (remove_spec q item Hwf) as (m1 & Hrem & _ & Hins).
  unfold requeue. cbv zeta. rewrite Hrem. simpl. fold others. rewrite Hins.
  set (q2 := mkState others (<[item:=t]> (timestampMap q))).
  assert (∀ y, y ∈ others → timestampMap q2 !! y = timestampMap q !! y) as Hkept.
  { intros y [Hne _]%list_elem_of_filter. simpl. by apply lookup_insert_ne. }
  assert (all_timestamped q2) as Hts2.
  { intros y Hy. rewrite Hkept by done. apply (wf_timestamped q Hwf).
    by apply list_elem_of_filter in Hy as [_ ?]. }
  destruct (enqueue_spec now' q2 item None Hts2) as (p & Hp & Henq2 & _ & Hafter).
  assert (effective_timestamp now' q2 item None = t) as Heff.
  { unfold effective_timestamp. simpl. by rewrite lookup_insert_eq. }
  rewrite Heff in Henq2, Hafter. rewrite Henq2. simpl in *.
  assert (p = length others) as ->.
  { destruct (decide (p = length others)) as [|Hne]; [done|].
    destruct (lookup_lt_is_Some_2 others p) as [e He]; [lia|].
    assert (e ∈ others) as Hin by eauto using list_elem_of_lookup_2.
    destruct (Hts2 e Hin) as [te Hte].
    pose proof (Hafter p e te ltac:(lia) He Hte) as Hle.
    rewrite Hkept in Hte by done. apply list_elem_of_filter in Hin as [Hne' Hin].
    pose proof (Hlatest e te Hin Hne' Hte). destruct Hle as [?|[? _]]; lia. }
  by rewrite take_ge, drop_all, insert_insert_eq by lia.
Qed.

Lemma requeue_moves_to_tail_witness :
  let q := run makeQueue [(0, Enqueue itemA (Some 100)); (0, Enqueue itemB (Some 200));
                          (0, Enqueue itemD (Some 400))] in
  well_formed q ∧ items q = [itemA; itemB; itemD] ∧
  requeue 1 2 q itemA (Some 500) =
    Returned tt (mkState [itemB; itemD; itemA] (<[itemA := 500]> (timestampMap q))) ∧
  (itemC ∉ items q) ∧ key itemC = key itemA ∧
  requeue 1 2 q itemC (Some 500) =
    Returned tt (mkState [itemA; itemB; itemD; itemC] (<[itemC := 500]> (timestampMap q))).
Proof.
  cbv zeta.
  set (q := run makeQueue [(0, Enqueue itemA (Some 100)); (0, Enqueue itemB (Some 200));
                           (0, Enqueue itemD (Some 400))]).
  assert (well_formed q) as Hwf.
  { apply run_well_formed; [apply makeQueue_well_formed|]. by_evaluation. }
  assert (items q = [itemA; itemB; itemD]) as Hq by (vm_compute; reflexivity).
  assert (∀ other t, other ∈ items q →
            timestampMap q !! other = Some t → t < 500) as Hlatest.
  { intros other t Hother Ht. rewrite Hq in Hother.
    repeat (apply elem_of_cons in Hother as [->|Hother]);
      [| | |by apply elem_of_nil in Hother];
      vm_compute in Ht; injection Ht as <-; lia. }
  split; [exact Hwf|]. split; [exact Hq|]. split; [|split; [by_evaluation|split; [done|]]].
  - refine (eq_trans (requeue_moves_to_tail 1 2 q itemA 500 Hwf _) _).
    + intros other t Hother _. by apply Hlatest.
    + vm_compute. reflexivity.
  - refine (eq_trans (requeue_moves_to_tail 1 2 q itemC 500 Hwf _) _).
    + intros other t Hother _. by apply Hlatest.
    + vm_compute. reflexivity.
Defined.

(** ** First in, first out *)

Lemma enqueue_fresh_append now q x t :
  timestampMap q !! x = None →
  (∀ e, last (items q) = Some e → ∃ te, timestampMap q !! e = Some te ∧ te < t) →
  enqueue now q x (Some t) =
    Returned tt (mkState (items q ++ [x]) (<[x := t]> (timestampMap q))).
Proof.
  intros Hnone Hlast. unfold enqueue. cbv zeta. rewrite Hnone. simpl.
  rewrite last_lookup in Hlast.
  destruct (length (items q)) as [|n] eqn:Hlen.
  { apply nil_length_inv in Hlen as ->. done. }
  simpl in *. destruct (lookup_lt_is_Some_2 (items q) n) as [e He]; [lia|].
  destruct (Hlast e He) as (te & Hte & Hlt). rewrite He, Hte.
  replace (goes_after t x te e) with true
    by (symmetry; apply goes_after_lt; by left).
  unfold splice_insert. replace (Z.to_nat (Z.of_nat n + 1)) with (length (items q)) by lia.
  by rewrite take_ge, drop_all by lia.
Qed.

Lemma run_enqueue_all_increasing now q l :
  NoDup l.*1 → StronglySorted Z.lt l.*2 →
  (∀ x, x ∈ l.*1 → timestampMap q !! x = None) →
  (∀ e t, last (items q) = Some e → t ∈ l.*2 →
          ∃ te, timestampMap q !! e = Some te ∧ te < t) →
  no_fault q (enqueue_all now l) ∧
  items (run q (enqueue_all now l)) = items q ++ l.*1 ∧
  (∀ x t, (x, t) ∈ l → timestampMap (run q (enqueue_all now l)) !! x = Some t) ∧
  (∀ y, y ∉ l.*1 → timestampMap (run q (enqueue_all now l)) !! y = timestampMap q !! y).
Proof.
  revert q. induction l as [|[x t] l IH]; intros q Hnd Hinc Hfresh Hlast.
  - simpl. rewrite app_nil_r. split; [done|]. split; [done|]. split; [|done].
    by intros x t ?%elem_of_nil.
  - cbn [fmap list_fmap fst snd] in Hnd, Hinc, Hfresh, Hlast.
    apply NoDup_cons in Hnd as [Hx Hnd]. apply StronglySorted_inv in Hinc as [Hinc Hall].
    rewrite Forall_forall in Hall.
    assert (enqueue now q x (Some t) =
            Returned tt (mkState (items q ++ [x]) (<[x := t]> (timestampMap q)))) as Henq.
    { apply enqueue_fresh_append; [apply Hfresh; by left|].
      intros e He. apply (Hlast e t He). by left. }
    cbn [enqueue_all fmap list_fmap run no_fault call fst snd]. rewrite Henq.
    cbn [state_of faulted].
    destruct (IH (mkState (items q ++ [x]) (<[x := t]> (timestampMap q))))
      as (Hnf & Hitems & Hts & Hother); [done|done| | |].
    { intros y Hy. simpl. rewrite lookup_insert_ne by (by intros ->).
      apply Hfresh. by right. }
    { intros e t' He Ht'. simpl in *. rewrite last_snoc in He. injection He as <-.
      exists t. rewrite lookup_insert_eq. split; [done|]. by apply Hall. }
    fold (enqueue_all now l). split; [done|]. split; [|split].
    + rewrite Hitems. simpl. by rewrite <- app_assoc.
    + intros y t' [[= -> ->]|Hy]%elem_of_cons; [|by apply Hts].
      rewrite Hother by done. simpl. apply lookup_insert_eq.
    + intros y Hy. apply not_elem_of_cons in Hy as [Hne Hy].
      rewrite Hother by done. simpl. by apply lookup_insert_ne.
Qed.

(** X15: first in, first out: enqueueing distinct items into the empty
    queue with strictly increasing timestamps runs without a fault and
    gives the sequence of the items in the order of the calls, each with
    its timestamp recorded. *)
Theorem enqueue_increasing_is_fifo now l :
  NoDup l.*1 → StronglySorted Z.lt l.*2 →
  no_fault makeQueue (enqueue_all now l) ∧
  list (run makeQueue (enqueue_all now l)) = l.*1 ∧
  ∀ x t, (x, t) ∈ l → timestampMap (run makeQueue (enqueue_all now l)) !! x = Some t.
Proof.
  intros Hnd Hinc.
  destruct (run_enqueue_all_increasing now makeQueue l Hnd Hinc)
    as (Hnf & Hitems & Hts & _); [done|done|].
  split; [done|]. split; [|done]. unfold list. by rewrite Hitems.
Qed.

Lemma enqueue_increasing_is_fifo_witness :
  let l := [(itemX, 10); (itemA, 20); (itemD, 30); (itemB, 40)] in
  NoDup l.*1 ∧ StronglySorted Z.lt l.*2 ∧
  list (run makeQueue (enqueue_all 0 l)) = [itemX; itemA; itemD; itemB].
Proof.
  cbv zeta.
  assert (NoDup [(itemX, 10); (itemA, 20); (itemD, 30); (itemB, 40)].*1) as Hnd
    by by_evaluation.
  assert (StronglySorted Z.lt [(itemX, 10); (itemA, 20); (itemD, 30); (itemB, 40)].*2)
    as Hinc.
  { simpl. repeat constructor; lia. }
  split; [exact Hnd|]. split; [exact Hinc|].
  exact (proj1 (proj2 (enqueue_increasing_is_fifo 0 _ Hnd Hinc))).
Defined.

End Queue.
